(** * Contract Catalyst: the calculation-and-formatting core

    A shallow embedding of [src/components/contract-calculator.tsx]:
    the zod schema [formSchema] (the Validator), the submit handler
    [onSubmit] (the Calculator) and [resultInWords] (the Wordifier),
    together with the pieces of the JavaScript language they rest on.

    JavaScript numbers are IEEE 754 binary64 values; they are modelled by
    Rocq's primitive floats, whose operations are the same ones, and
    whose specification ([Prim2SF], [SpecFloat]) gives every finite
    number as a sign, a mantissa and a binary exponent. *)

From Stdlib Require Import ZArith NArith List String Ascii Bool Lia Floats.
From Stdlib Require Import DecimalString DecimalN DecimalPos DecimalFacts.
Import ListNotations.

Set Warnings "-inexact-float".

Local Open Scope Z_scope.

(** ** Binary64 values as scaled integers *)

Module Binary64.

(** Every exponent the operations meet is above [- bias]; [scale m e]
    is [m * 2^e] in units of [2^(- bias)], an integer. *)
Definition bias : Z := 3000.

Definition scale (m e : Z) : Z := m * 2 ^ (e + bias).

Arguments scale : simpl never.

(** A mantissa and exponent in the form the format stores them. *)
Definition canon (m e : Z) : Prop :=
  0 < m /\ SpecFloat.fexp prec emax (Zdigits2 m + e) = e.

(** What a rounding step has cut off. *)
Definition inexact (mrs : shr_record) : bool := shr_r mrs || shr_s mrs.

Definition inexact_loc (l : location) : bool :=
  match l with
  | loc_Exact => false
  | loc_Inexact _ => true
  end.

(** An upper end for a value known by its truncation [m]. *)
Definition up (m : Z) (cut : bool) : Z := if cut then m + 1 else m.

(** The value of a finite number, with its sign. *)
Definition signed (s : bool) (m : positive) (e : Z) : Z :=
  cond_Zopp s (scale (Z.pos m) e).

(** The value of a number that is zero or finite. *)
Definition val (x : spec_float) : Z :=
  match x with
  | S754_finite s m e => signed s m e
  | _ => 0
  end.

Definition finite (x : spec_float) : bool :=
  match x with
  | S754_zero _ | S754_finite _ _ _ => true
  | _ => false
  end.

(** [x] is zero or a positive finite number at most [mB * 2^eB]. *)
Definition at_most (x : spec_float) (mB eB : Z) : Prop :=
  x = S754_zero false
  \/ exists m e, x = S754_finite false m e
                 /\ scale (Z.pos m) e <= scale mB eB.

(** [x] is a positive number, or infinity, at least [mL * 2^eL]. *)
Definition at_least (x : spec_float) (mL eL : Z) : Prop :=
  x = S754_infinity false
  \/ exists m e, x = S754_finite false m e
                 /\ scale mL eL <= scale (Z.pos m) e.

End Binary64.

(** ** JavaScript: completions, numbers, strings *)

Module JS.

(** The two exceptions the code can meet. *)
Inductive exn : Set :=
| TypeError
| RangeError.

(** A call either returns a value or throws. *)
Inductive completion (A : Type) : Type :=
| Returns (a : A)
| Throws (e : exn).

Arguments Returns {A} a.
Arguments Throws {A} e.

Definition bind {A B : Type} (c : completion A) (k : A -> completion B)
  : completion B :=
  match c with
  | Returns a => k a
  | Throws e => Throws e
  end.

(** [Array.prototype.map] with a callback that may throw: elements are
    visited from the left and the first exception ends the call. *)
Fixpoint mapM {A B : Type} (f : A -> completion B) (l : list A)
  : completion (list B) :=
  match l with
  | [] => Returns []
  | a :: l' =>
      bind (f a) (fun b => bind (mapM f l') (fun bs => Returns (b :: bs)))
  end.

(** *** Numbers *)

Definition isNaN (x : float) : bool :=
  match Prim2SF x with
  | S754_nan => true
  | _ => false
  end.

Definition isFinite (x : float) : bool :=
  match Prim2SF x with
  | S754_zero _ | S754_finite _ _ _ => true
  | _ => false
  end.

(** [Number.isInteger]: finite and without fractional part. *)
Definition isInteger (x : float) : bool :=
  match Prim2SF x with
  | S754_zero _ => true
  | S754_finite _ m e => (0 <=? e) || (Z.pos m mod 2 ^ (- e) =? 0)
  | _ => false
  end.

(** The Number value for an integer: the nearest double, ties to even. *)
Definition of_Z (z : Z) : float :=
  SF2Prim (binary_normalize prec emax z 0 false).

Definition of_N (n : N) : float := of_Z (Z.of_N n).

(** [x] is finite and positive, and its value is the integer [z]. *)
Definition holds_integer (x : float) (z : Z) : Prop :=
  exists m e,
    Prim2SF x = S754_finite false m e
    /\ Binary64.scale (Z.pos m) e = z * 2 ^ Binary64.bias.

(** [m * 2^e < 10^k], on the exact values. *)
Definition below_pow10 (k : Z) (m : positive) (e : Z) : bool :=
  if 0 <=? e then Z.pos m * 2 ^ e <? 10 ^ k
  else Z.pos m <? 10 ^ k * 2 ^ (- e).

(** The integer [n] for which [n / 10^f] is nearest to [m * 2^e], the
    larger one when two are equally near (ECMA-262, Number.prototype.toFixed
    step 10.a; ECMA-402 ToRawFixed with rounding mode half-expand). *)
Definition round_scaled (f : nat) (m : positive) (e : Z) : N :=
  let p := 10 ^ Z.of_nat f in
  Z.to_N (if 0 <=? e then Z.pos m * 2 ^ e * p
          else (2 * (Z.pos m * p) + 2 ^ (- e)) / (2 * 2 ^ (- e))).

(** *** Strings

    Strings are sequences of ASCII characters: every string the program
    builds (digits, signs, English words) is ASCII. *)

Local Open Scope string_scope.

(** [String.prototype.split] with a one-character separator. *)
Fixpoint split (sep : ascii) (s : string) : list string :=
  match s with
  | "" => [""]
  | String c s' =>
      if Ascii.eqb c sep then "" :: split sep s'
      else match split sep s' with
           | [] => [String c ""]
           | w :: ws => String c w :: ws
           end
  end.

(** [s.split('')]: the characters of [s], each as a string. *)
Fixpoint chars (s : string) : list string :=
  match s with
  | "" => []
  | String c s' => String c "" :: chars s'
  end.

(** [Array.prototype.join]. *)
Fixpoint join (sep : string) (l : list string) : string :=
  match l with
  | [] => ""
  | [w] => w
  | w :: ws => w ++ sep ++ join sep ws
  end.

Definition charAt0 (s : string) : string :=
  match s with
  | "" => ""
  | String c _ => String c ""
  end.

Definition slice1 (s : string) : string :=
  match s with
  | "" => ""
  | String _ s' => s'
  end.

Definition is_lower (c : ascii) : bool :=
  (97 <=? nat_of_ascii c)%nat && (nat_of_ascii c <=? 122)%nat.

Definition upper (c : ascii) : ascii :=
  if is_lower c then ascii_of_nat (nat_of_ascii c - 32) else c.

Fixpoint toUpperCase (s : string) : string :=
  match s with
  | "" => ""
  | String c s' => String (upper c) (toUpperCase s')
  end.

Definition is_digit (c : ascii) : bool :=
  (48 <=? nat_of_ascii c)%nat && (nat_of_ascii c <=? 57)%nat.

Fixpoint all_chars (p : ascii -> bool) (s : string) : bool :=
  match s with
  | "" => true
  | String c s' => p c && all_chars p s'
  end.

Definition differs (sep c : ascii) : bool := negb (Ascii.eqb c sep).

(** *** Numbers to strings *)

(** The decimal digits of a natural number, ["0"] for zero. *)
Definition decimal (n : N) : string :=
  NilZero.string_of_uint (N.to_uint n).

Fixpoint zeros (k : nat) : string :=
  match k with
  | O => ""
  | S k' => String "0" (zeros k')
  end.

(** The last [f] decimal digits of [n], with leading zeros. *)
Definition fraction_digits (f : nat) (n : N) : string :=
  let d := decimal (n mod 10 ^ N.of_nat f) in
  zeros (f - String.length d) ++ d.

(** The digit of [n] at decimal position [i] (0 for the units). *)
Definition digit_at (i : N) (n : N) : N := ((n / 10 ^ i) mod 10)%N.

(** The last three decimal digits of [n], one by one. *)
Definition three_digits (n : N) : string :=
  decimal (digit_at 2 n) ++ decimal (digit_at 1 n) ++ decimal (digit_at 0 n).

(** Fixed notation: the digits of [n / 10^f], a point, and [f] digits. *)
Definition fixed_notation (f : nat) (n : N) : string :=
  decimal (n / 10 ^ N.of_nat f) ++ "." ++ fraction_digits f n.

(** [Number::toString] where [toFixed] needs it: a finite [x] with exact
    integer value [v >= 10^21].  The result is the shortest digit string
    [s] (of [k] digits) and exponent [n] with [s * 10^(n-k)] rounding to
    [x]; among several, the nearest to [v], then the even one.  Being at
    least [10^21] it is always written in exponential notation. *)
Section ToString.
Variable x : float.
Variable v : Z.

Definition candidates (k n : Z) : list Z :=
  let scale := 10 ^ (n - k) in
  filter
    (fun s => ((10 ^ (k - 1) <=? s) && (s <? 10 ^ k))%Z
              && PrimFloat.eqb (of_Z (s * scale)) x)
    [v / scale; v / scale + 1].

Definition nearer (n k a b : Z) : Z :=
  let da := Z.abs (a * 10 ^ (n - k) - v) in
  let db := Z.abs (b * 10 ^ (n - k) - v) in
  if (da <? db)%Z then a
  else if (db <? da)%Z then b
  else if Z.even a then a else b.

Definition best (k n : Z) : option Z :=
  match candidates k n with
  | [] => None
  | a :: l => Some (fold_left (nearer n k) l a)
  end.

(** The first [k], counting up from [k], that has a candidate. *)
Fixpoint shortest (fuel : nat) (k nd : Z) : option (Z * Z * Z) :=
  match fuel with
  | O => None
  | S fuel' =>
      match best k nd, best k (nd + 1) with
      | Some s, _ => Some (s, k, nd)
      | None, Some s => Some (s, k, nd + 1)
      | None, None => shortest fuel' (k + 1) nd
      end
  end.
End ToString.

Definition exponential_notation (s k n : Z) : string :=
  let d := decimal (Z.to_N s) in
  let e := decimal (Z.to_N (n - 1)) in
  match d with
  | String c r =>
      if (k =? 1)%Z then String c "" ++ "e+" ++ e
      else String c "" ++ "." ++ r ++ "e+" ++ e
  | "" => ""
  end.

Definition toString_large (x : float) (v : Z) : string :=
  let nd := Z.of_nat (String.length (decimal (Z.to_N v))) in
  match shortest x v 17 1 nd with
  | Some (s, k, n) => exponential_notation s k n
  | None => ""
  end.

(** [Number.prototype.toFixed(f)] (ECMA-262 21.1.3.3). *)
Definition toFixed (f : nat) (x : float) : string :=
  match Prim2SF x with
  | S754_nan => "NaN"
  | S754_infinity s => if s then "-Infinity" else "Infinity"
  | S754_zero _ => fixed_notation f 0
  | S754_finite s m e =>
      (if s then "-" else "") ++
      (if below_pow10 21 m e then fixed_notation f (round_scaled f m e)
       else toString_large (abs x) (Z.pos m * 2 ^ e))
  end.

(** The magnitude of [x] in units of [10^-f], rounded as [toFixed]
    rounds it; [None] when [x] is not finite. *)
Definition scaled_magnitude (f : nat) (x : float) : option N :=
  match Prim2SF x with
  | S754_zero _ => Some 0%N
  | S754_finite _ m e => Some (round_scaled f m e)
  | _ => None
  end.

(** [x] is finite and its magnitude is below [10^21], the range in
    which [toFixed] writes fixed notation. *)
Definition below_1e21 (x : float) : bool :=
  match Prim2SF x with
  | S754_zero _ => true
  | S754_finite _ m e => below_pow10 21 m e
  | _ => false
  end.

(** *** Strings to numbers

    [Number(s)] on the strings this program passes to it: pieces of a
    [toFixed] result cut at the decimal point, and single characters.
    Such a string has no white space, no decimal point and no radix
    prefix; it is an optional sign followed by ["Infinity"] or by digits
    with an optional exponent, and anything else is [NaN]. *)

Definition digits_value (s : string) : option N :=
  option_map N.of_uint (NilZero.uint_of_string s).

(** Cuts [s] at its first [e] or [E]. *)
Fixpoint split_exponent (s : string) : string * option string :=
  match s with
  | "" => ("", None)
  | String c r =>
      if Ascii.eqb c "e" || Ascii.eqb c "E" then ("", Some r)
      else let '(m, x) := split_exponent r in (String c m, x)
  end.

Definition exponent_value (s : string) : option Z :=
  match s with
  | String "-" r => option_map (fun n => - Z.of_N n)%Z (digits_value r)
  | String "+" r => option_map Z.of_N (digits_value r)
  | _ => option_map Z.of_N (digits_value s)
  end.

(** The double nearest to [n * 10^k]. *)
Definition of_decimal (n : N) (k : Z) : float :=
  match n with
  | N0 => zero
  | Npos p =>
      if (0 <=? k)%Z then of_Z (Z.pos p * 10 ^ k)
      else
        let '(mz, ez, lz) :=
          SFdiv_core_binary prec emax (Z.pos p) 0 (10 ^ (- k)) 0 in
        SF2Prim (binary_round_aux prec emax false mz ez lz)
  end.

Definition unsigned_literal (s : string) : float :=
  if String.eqb s "Infinity" then infinity
  else
    match split_exponent s with
    | (m, None) =>
        match digits_value m with
        | Some n => of_N n
        | None => nan
        end
    | (m, Some x) =>
        match digits_value m, exponent_value x with
        | Some n, Some k => of_decimal n k
        | _, _ => nan
        end
    end.

Definition Number (s : string) : float :=
  match s with
  | "" => zero
  | String "-" r => (- unsigned_literal r)%float
  | String "+" r => unsigned_literal r
  | _ => unsigned_literal s
  end.

(** *** Intl.NumberFormat

    [new Intl.NumberFormat('en-US', { minimumFractionDigits: 3,
    maximumFractionDigits: 3 })]: the value rounded to three fraction
    digits (ECMA-402 ToRawFixed, half-expand), the integer digits in
    groups of three separated by commas.  [prefix] is the empty string
    for style [decimal] and the currency sign for style [currency].

    The rounding is the one ECMA-402 writes, on the exact value of the
    double.  Engines built on ICU round the shortest decimal that
    reads back as the double instead: they differ from this model on
    ties of that decimal (5.5165 is shown as 5.517) and on integers
    above [2^53], and agree with it elsewhere, as on 1103.3.  Nothing
    below is proved about the display but its value at 1103.3. *)

Fixpoint group3 (s : string) : string :=
  match s with
  | "" => ""
  | String c r =>
      String c
        (if (0 <? String.length r)%nat && (String.length r mod 3 =? 0)%nat
         then "," ++ group3 r
         else group3 r)
  end.

Definition format3 (prefix : string) (x : float) : string :=
  match Prim2SF x with
  | S754_nan => "NaN"
  | S754_infinity s => (if s then "-" else "") ++ prefix ++ "∞"
  | S754_zero s => (if s then "-" else "") ++ prefix ++ "0.000"
  | S754_finite s m e =>
      let n := round_scaled 3 m e in
      (if s then "-" else "") ++ prefix ++
      group3 (decimal (n / 1000)) ++ "." ++ fraction_digits 3 n
  end.

End JS.

(** ** The package number-to-words

    [resultInWords] imports [toWords] from the npm package
    number-to-words (line 8 of the component).  The definitions below
    transcribe the package's [lib/toWords.js]; the general results about
    [resultInWords] further down do not depend on them, they take
    [toWords] as a parameter. *)

Module NumberToWords.

Import JS.
Local Open Scope string_scope.

Definition MAX_SAFE_INTEGER : Z := 9007199254740991.

Definition LESS_THAN_TWENTY : list string :=
  ["zero"; "one"; "two"; "three"; "four"; "five"; "six"; "seven"; "eight";
   "nine"; "ten"; "eleven"; "twelve"; "thirteen"; "fourteen"; "fifteen";
   "sixteen"; "seventeen"; "eighteen"; "nineteen"].

Definition TENTHS_LESS_THAN_HUNDRED : list string :=
  ["zero"; "ten"; "twenty"; "thirty"; "forty"; "fifty"; "sixty"; "seventy";
   "eighty"; "ninety"].

Definition index (table : list string) (n : N) : string :=
  nth (N.to_nat n) table "undefined".

(** [words.join(' ').replace(/,$/, '')]. *)
Fixpoint drop_last_comma (s : string) : string :=
  match s with
  | "" => ""
  | String c r =>
      match r with
      | "" => if Ascii.eqb c "," then "" else s
      | _ => String c (drop_last_comma r)
      end
  end.

(** [generateWords(number, words)] for a non-negative [number]; [words]
    is [None] on a first run (the JavaScript argument is undefined).
    Every recursive call is on a smaller number; [fuel] bounds the depth. *)
Fixpoint generateWords_from (fuel : nat) (number : N)
    (words : option (list string)) : string :=
  match fuel with
  | O => ""
  | S fuel' =>
      if (number =? 0)%N then
        match words with
        | None => "zero"
        | Some ws => drop_last_comma (join " " ws)
        end
      else
        let ws := match words with None => [] | Some ws => ws end in
        let fresh n := generateWords_from fuel' n None in
        let '(remainder, word) :=
          if (number <? 20)%N then
            (0%N, index LESS_THAN_TWENTY number)
          else if (number <? 100)%N then
            let remainder := (number mod 10)%N in
            let word := index TENTHS_LESS_THAN_HUNDRED (number / 10) in
            if (remainder =? 0)%N then (0%N, word)
            else (0%N, word ++ "-" ++ index LESS_THAN_TWENTY remainder)
          else if (number <? 1000)%N then
            ((number mod 100)%N, fresh (number / 100)%N ++ " hundred")
          else if (number <? 1000000)%N then
            ((number mod 1000)%N, fresh (number / 1000)%N ++ " thousand,")
          else if (number <? 1000000000)%N then
            ((number mod 1000000)%N,
             fresh (number / 1000000)%N ++ " million,")
          else if (number <? 1000000000000)%N then
            ((number mod 1000000000)%N,
             fresh (number / 1000000000)%N ++ " billion,")
          else if (number <? 1000000000000000)%N then
            ((number mod 1000000000000)%N,
             fresh (number / 1000000000000)%N ++ " trillion,")
          else
            ((number mod 1000000000000000)%N,
             fresh (number / 1000000000000000)%N ++ " quadrillion,")
        in
        generateWords_from fuel' remainder (Some (ws ++ [word])%list)
  end.

(** [generateWords(number)] for any integer: a negative number is
    written as ["minus"] and its absolute value. *)
Definition generateWords (number : Z) : string :=
  let n := Z.to_N (Z.abs number) in
  generateWords_from (S (S (N.to_nat (N.log2 n)))) n
    (if (number <? 0)%Z then Some ["minus"] else None).

(** [parseInt(number, 10)] of a Number: [None] stands for [NaN].  Below
    [10^21] the string read is in fixed notation and the result is the
    number truncated (the program only ever passes integers); from
    [10^21] on it is the digit before the point or the exponent mark. *)
Definition parseInt (x : float) : option Z :=
  match Prim2SF x with
  | S754_zero _ => Some 0%Z
  | S754_finite s m e =>
      let magnitude :=
        if below_pow10 21 m e then
          if (0 <=? e)%Z then (Z.pos m * 2 ^ e)%Z
          else (Z.pos m / 2 ^ (- e))%Z
        else
          match split "." (toString_large (abs x) (Z.pos m * 2 ^ e)) with
          | d :: _ =>
              match digits_value (fst (split_exponent d)) with
              | Some n => Z.of_N n
              | None => 0%Z
              end
          | [] => 0%Z
          end
      in
      Some (if s then (- magnitude)%Z else magnitude)
  | _ => None
  end.

(** [toWords(number)]: throws a [TypeError] when the number read is not
    finite and a [RangeError] when it is not a safe integer. *)
Definition toWords (number : float) : completion string :=
  match parseInt number with
  | None => Throws TypeError
  | Some num =>
      if (Z.abs num <=? MAX_SAFE_INTEGER)%Z then Returns (generateWords num)
      else Throws RangeError
  end.

End NumberToWords.

(** ** The zod schemas the form uses

    The schema combinators of zod 3 that [formSchema] is built from,
    with the parsing they stand for: every check of a number schema runs
    and adds its issue (the value becomes "dirty"), a value that is not
    a number aborts the parse of its field, and a refinement of an
    object runs unless the parse of the object was aborted. *)

Module Zod.

Import JS.
Local Open Scope string_scope.

Inductive ZodIssueCode : Set :=
| invalid_type
| too_small
| too_big
| custom.

Record ZodIssue : Set := {
  code : ZodIssueCode;
  path : list string;
  message : string
}.

Inductive ParseStatus : Set :=
| valid
| dirty
| aborted.

(** The checks on a number: [.int()], [.min(v, msg)] and [.positive(msg)]
    (a minimum, inclusive or not), [.max(v, msg)]. *)
Inductive ZodNumberCheck : Set :=
| check_int
| check_min (value : float) (inclusive : bool) (msg : string)
| check_max (value : float) (inclusive : bool) (msg : string).

(** [z.coerce.number({ required_error })] with its checks, in the order
    they were added. *)
Record ZodNumber : Set := {
  required_error : string;
  checks : list ZodNumberCheck
}.

Definition coerce_number (required : string) : ZodNumber :=
  {| required_error := required; checks := [] |}.

Definition add_check (c : ZodNumberCheck) (s : ZodNumber) : ZodNumber :=
  {| required_error := required_error s;
     checks := (checks s ++ [c])%list |}.

Definition positive (msg : string) := add_check (check_min 0 false msg).
Definition int := add_check check_int.
Definition min (v : float) (msg : string) := add_check (check_min v true msg).
Definition max (v : float) (msg : string) := add_check (check_max v true msg).

(** The issue a check raises on [x], if any. *)
Definition run_check (p : list string) (x : float) (c : ZodNumberCheck)
  : option ZodIssue :=
  match c with
  | check_int =>
      if isInteger x then None
      else Some {| code := invalid_type; path := p;
                   message := "Expected integer, received float" |}
  | check_min v inclusive msg =>
      if (if inclusive then x <? v else x <=? v)%float
      then Some {| code := too_small; path := p; message := msg |}
      else None
  | check_max v inclusive msg =>
      if (if inclusive then v <? x else v <=? x)%float
      then Some {| code := too_big; path := p; message := msg |}
      else None
  end.

Fixpoint run_checks (p : list string) (x : float)
    (cs : list ZodNumberCheck) : list ZodIssue :=
  match cs with
  | [] => []
  | c :: cs' =>
      match run_check p x c with
      | Some i => i :: run_checks p x cs'
      | None => run_checks p x cs'
      end
  end.

(** The issue for a field that is not a number. *)
Definition NotANumber (field : string) : ZodIssue :=
  {| code := invalid_type; path := [field];
     message := "Expected number, received nan" |}.

(** Parsing a coerced field.  The input has been through [Number(...)],
    so it is a number; [NaN] is the one number the schema does not take
    as one, whatever [required_error] says (that message is for an
    input that is still [undefined], which coercion never leaves). *)
Definition parse_number (s : ZodNumber) (p : list string) (x : float)
  : ParseStatus * list ZodIssue :=
  if isNaN x then
    (aborted, [{| code := invalid_type; path := p;
                  message := "Expected number, received nan" |}])
  else
    match run_checks p x (checks s) with
    | [] => (valid, [])
    | issues => (dirty, issues)
    end.

(** The issues of the field [k] holding [x]. *)
Definition field_issues (s : ZodNumber) (k : string) (x : float)
  : list ZodIssue :=
  if isNaN x then [NotANumber k] else run_checks [k] x (checks s).

Definition merge (a b : ParseStatus) : ParseStatus :=
  match a, b with
  | aborted, _ | _, aborted => aborted
  | dirty, _ | _, dirty => dirty
  | valid, valid => valid
  end.

(** [z.object(shape)]: every field is parsed, in the order of the
    shape, and the issues add up.  [input k] is the coerced value of
    the property [k]. *)
Definition ZodObject := list (string * ZodNumber).

Fixpoint parse_object (shape : ZodObject) (input : string -> float)
  : ParseStatus * list ZodIssue :=
  match shape with
  | [] => (valid, [])
  | (k, s) :: shape' =>
      let '(st, issues) := parse_number s [k] (input k) in
      let '(st', issues') := parse_object shape' input in
      (merge st st', (issues ++ issues')%list)
  end.

(** [schema.refine(check, { message, path })]. *)
Record ZodEffects : Type := {
  inner : ZodObject;
  refinement : (string -> float) -> bool;
  refinement_message : string;
  refinement_path : list string
}.

Definition refine (shape : ZodObject) (check : (string -> float) -> bool)
    (msg : string) (p : list string) : ZodEffects :=
  {| inner := shape; refinement := check;
     refinement_message := msg; refinement_path := p |}.

Definition parse_effects (schema : ZodEffects) (input : string -> float)
  : ParseStatus * list ZodIssue :=
  let '(st, issues) := parse_object (inner schema) input in
  match st with
  | aborted => (aborted, issues)
  | _ =>
      if refinement schema input then (st, issues)
      else (dirty,
            (issues ++ [{| code := custom; path := refinement_path schema;
                           message := refinement_message schema |}])%list)
  end.

(** [schema.safeParse(input)]: the issues found; the parse succeeds when
    there is none. *)
Definition safeParse (schema : ZodEffects) (input : string -> float)
  : list ZodIssue :=
  snd (parse_effects schema input).

Definition success (schema : ZodEffects) (input : string -> float) : bool :=
  match safeParse schema input with
  | [] => true
  | _ => false
  end.

End Zod.

(** ** The component: src/components/contract-calculator.tsx *)

Module ContractCalculator.

Import JS Zod.
Local Open Scope string_scope.

Notation "s |> f" := (f s) (at level 45, left associativity, only parsing).

(** *** Line 30: the module constant [currentYear]

    [const currentYear = new Date().getFullYear()] is a statement of the
    module body: it runs once, when the module is loaded.  A clock is
    the calendar year the system shows at some moment. *)

Definition Clock := Z.

Definition getFullYear (clock : Clock) : float := of_Z clock.

Record Loaded : Set := { currentYear : float }.

Definition load (clock : Clock) : Loaded :=
  {| currentYear := getFullYear clock |}.

(** *** Lines 32-41: [formSchema] and [FormValues] *)

Record FormValues : Set := {
  contractValue : float;
  issueYear : float;
  renewalYear : float
}.

(** The raw form data, each property coerced by [Number(...)]; a
    property the object lacks is [undefined], which coerces to [NaN]. *)
Definition coerced (data : FormValues) (k : string) : float :=
  if String.eqb k "contractValue" then contractValue data
  else if String.eqb k "issueYear" then issueYear data
  else if String.eqb k "renewalYear" then renewalYear data
  else nan.

Definition formSchema (currentYear : float) : ZodEffects :=
  refine
    [("contractValue",
       coerce_number "Contract value is required."
       |> positive "Contract value must be a positive number.");
     ("issueYear",
       coerce_number "Issue year is required."
       |> int
       |> min 1900 "Year must be 1900 or later."
       |> max currentYear "Year cannot be in the future.");
     ("renewalYear",
       coerce_number "Renewal year is required."
       |> int
       |> min 1900 "Year must be 1900 or later.")]
    (fun data => (data "issueYear" <? data "renewalYear")%float)
    "Renewal year must be after the issue year."
    ["renewalYear"].

(** A validation call made while the clock shows [now].  The schema was
    built when the module was loaded; the call does not read the clock. *)
Definition validate (m : Loaded) (now : Clock) (data : FormValues)
  : list ZodIssue :=
  safeParse (formSchema (currentYear m)) (coerced data).

(** *** Lines 43-71: the component state and [onSubmit] *)

Record FieldError : Set := {
  type : string;
  error_message : string
}.

(** [result] is the [useState] cell; [errors] the errors set on the
    form, by field name. *)
Record State : Set := {
  result : option float;
  errors : list (string * FieldError)
}.

Definition setResult (v : float) (st : State) : State :=
  {| result := Some v; errors := errors st |}.

Definition setError (name : string) (e : FieldError) (st : State) : State :=
  {| result := result st;
     errors := (name, e) ::
               filter (fun p => negb (String.eqb (fst p) name)) (errors st) |}.

Definition onSubmit (data : FormValues) (st : State) : State :=
  let yearsDifference := (renewalYear data - issueYear data)%float in
  if (yearsDifference <=? 0)%float then
    setError "renewalYear"
      {| type := "manual";
         error_message := "Renewal year must be greater than issue year." |}
      st
  else
    let value1 := (contractValue data / (yearsDifference * 12))%float in
    let value2 := (value1 * 10.33)%float in
    let finalAnswer := ((value2 / 100) + value1)%float in
    setResult finalAnswer st.

(** *** Lines 73-82: [resultInWords] *)

Section Wordifier.

(** [toWords], imported from number-to-words. *)
Variable toWords : float -> completion string.

Definition capitalize (word : string) : string :=
  toUpperCase (charAt0 word) ++ slice1 word.

Definition resultInWords (num : option float) : completion string :=
  match num with
  | None => Returns ""
  | Some num =>
      let fixedNum := toFixed 3 num in
      let parts := split "." fixedNum in
      let integerPart := hd "" parts in
      let fractionalPart := nth_error parts 1 in
      bind (toWords (Number integerPart)) (fun integerWords =>
      match fractionalPart with
      | None => Throws TypeError
      | Some fractionalPart =>
          bind (mapM (fun digit => toWords (Number digit))
                     (chars fractionalPart)) (fun ws =>
          let fractionalWords := join " " ws in
          let words := integerWords ++ " point " ++ fractionalWords in
          Returns (join " " (map capitalize (split " " words))))
      end)
  end.

End Wordifier.

(** *** Lines 174 and 176: the decimal display; the revision of the
    component kept as [src/unnamed/part_000] (lines 88 and 187) formats
    the same number as US dollars. *)

Definition decimalDisplay (result : float) : string := format3 "" result.

Definition currencyDisplay (result : float) : string := format3 "$" result.

(** *** The vocabulary of the specification *)

(** The formula as the specification writes it (section 4.2), step by
    step, to be compared with what [onSubmit] stores. *)
Definition calculate (contractValue issueYear renewalYear : float) : float :=
  let months := ((renewalYear - issueYear) * 12)%float in
  let v1 := (contractValue / months)%float in
  let v2 := (v1 * 10.33)%float in
  ((v2 / 100) + v1)%float.

(** The specification's names for the errors of the code. *)
Definition InvalidDuration : FieldError :=
  {| type := "manual";
     error_message := "Renewal year must be greater than issue year." |}.

Definition RenewalNotAfterIssue : ZodIssue :=
  {| code := custom; path := ["renewalYear"];
     message := "Renewal year must be after the issue year." |}.

Definition YearTooEarly : ZodIssue :=
  {| code := too_small; path := ["issueYear"];
     message := "Year must be 1900 or later." |}.

Definition YearInFuture : ZodIssue :=
  {| code := too_big; path := ["issueYear"];
     message := "Year cannot be in the future." |}.

(** The specification's YearOutOfRange, for the issue year: one of the
    two issues above. *)
Definition YearOutOfRange (i : ZodIssue) : Prop :=
  i = YearTooEarly \/ i = YearInFuture.

(** The specification's NonPositiveValue: the issue of [.positive]. *)
Definition NonPositiveValue : ZodIssue :=
  {| code := too_small; path := ["contractValue"];
     message := "Contract value must be a positive number." |}.

(** The issue [.int()] raises on the field [field]. *)
Definition NotAnInteger (field : string) : ZodIssue :=
  {| code := invalid_type; path := [field];
     message := "Expected integer, received float" |}.

(** The fields of the form. *)
Definition fields : list string :=
  ["contractValue"; "issueYear"; "renewalYear"].

(** A word whose first character is not a lower-case letter. *)
Definition capitalized (word : string) : Prop :=
  match word with
  | "" => True
  | String c _ => is_lower c = false
  end.

(** The title-cased sentence [resultInWords] builds from the words of
    the integer part and of the fractional digits. *)
Definition sentence (integerWords : string) (fractionalWords : list string)
  : string :=
  join " " (map capitalize
    (split " " (integerWords ++ " point " ++ join " " fractionalWords))).

(** The years a JavaScript [Date] can show. *)
Definition clock_year (t : Clock) : Prop := (-271821 <= t <= 275760)%Z.

(** What [resultInWords] computes on a number written in fixed
    notation, [n] being its magnitude in thousandths and [negative] its
    sign: [toWords] is called on the signed integer part, then on each
    of the three fractional digits. *)
Definition worded (toWords : float -> completion string) (negative : bool)
    (n : N) : completion string :=
  let integer := of_N (n / 1000) in
  bind (toWords (if negative then (- integer)%float else integer))
    (fun integerWords =>
       bind (mapM (fun d => toWords (of_N d))
               [digit_at 2 n; digit_at 1 n; digit_at 0 n])
         (fun fractionalWords =>
            Returns (sentence integerWords fractionalWords))).

(** *** Scenarios *)

(** Scenario 2 of the specification. *)
Definition scenario2 : FormValues :=
  {| contractValue := 12000; issueYear := 2021; renewalYear := 2022 |}.

(** Scenario 3: the years the wrong way round. *)
Definition reversed_years : FormValues :=
  {| contractValue := 50000; issueYear := 2022; renewalYear := 2021 |}.

(** A form whose contract value was left empty. *)
Definition no_contract_value : FormValues :=
  {| contractValue := nan; issueYear := 2022; renewalYear := 2021 |}.

(** An issue year that is the year after the module was loaded. *)
Definition issued_next_year : FormValues :=
  {| contractValue := 50000; issueYear := 2025; renewalYear := 2026 |}.

Definition initial : State := {| result := None; errors := [] |}.

End ContractCalculator.

(** * Properties *)

Import Binary64.
Local Open Scope Z_scope.

(** ** Binary64: digits, shifts and rounding *)

Lemma fexp_eq e : SpecFloat.fexp prec emax e = Z.max (e - 53) (-1074).
Proof. reflexivity. Qed.

Lemma fexp_mono a b :
  a <= b -> SpecFloat.fexp prec emax a <= SpecFloat.fexp prec emax b.
Proof. rewrite !fexp_eq. lia. Qed.

Lemma digits2_pos_log2 p : Z.pos (digits2_pos p) = Z.log2 (Z.pos p) + 1.
Proof.
  induction p as [p IH|p IH|]; simpl digits2_pos; try reflexivity;
    rewrite Pos2Z.inj_succ, IH.
  - rewrite Pos2Z.inj_xI, Z.log2_succ_double by lia. lia.
  - rewrite Pos2Z.inj_xO, Z.log2_double by lia. lia.
Qed.

Lemma Zdigits2_log2 m : 0 < m -> Zdigits2 m = Z.log2 m + 1.
Proof.
  destruct m as [|p|p]; try lia. intros _. apply digits2_pos_log2.
Qed.

Lemma Zdigits2_bounds m :
  0 < m -> 2 ^ (Zdigits2 m - 1) <= m < 2 ^ Zdigits2 m.
Proof.
  intros Hm. rewrite Zdigits2_log2 by assumption.
  replace (Z.log2 m + 1 - 1) with (Z.log2 m) by lia.
  replace (Z.log2 m + 1) with (Z.succ (Z.log2 m)) by lia.
  apply Z.log2_spec. assumption.
Qed.

Lemma Zdigits2_pos m : 0 < m -> 0 < Zdigits2 m.
Proof.
  intros Hm. rewrite Zdigits2_log2 by assumption.
  pose proof (Z.log2_nonneg m). lia.
Qed.

Ltac blia := unfold bias in *; lia.

Lemma pow2_pos k : 0 <= k -> 0 < 2 ^ k.
Proof. intros Hk. apply Z.pow_pos_nonneg; blia. Qed.

Lemma scale_pos m e : - bias <= e -> 0 < m -> 0 < scale m e.
Proof.
  intros He Hm. unfold scale. apply Z.mul_pos_pos; [assumption|].
  apply pow2_pos. blia.
Qed.

Lemma scale_shift m e n :
  0 <= n -> - bias <= e -> scale (m * 2 ^ n) e = scale m (e + n).
Proof.
  intros Hn He. unfold scale.
  replace (e + n + bias) with (n + (e + bias)) by blia.
  rewrite (Z.pow_add_r 2 n (e + bias)) by blia. ring.
Qed.

Lemma scale_le a b e : - bias <= e -> (scale a e <= scale b e <-> a <= b).
Proof.
  intros He. unfold scale. symmetry.
  apply Z.mul_le_mono_pos_r. apply pow2_pos. blia.
Qed.

Lemma scale_lt a b e : - bias <= e -> (scale a e < scale b e <-> a < b).
Proof.
  intros He. unfold scale. symmetry.
  apply Z.mul_lt_mono_pos_r. apply pow2_pos. blia.
Qed.

Lemma scale_digits m e :
  0 < m -> - bias <= e ->
  2 ^ (Zdigits2 m - 1 + e + bias) <= scale m e < 2 ^ (Zdigits2 m + e + bias).
Proof.
  intros Hm He. pose proof (Zdigits2_bounds m Hm) as [Hlo Hhi].
  pose proof (Zdigits2_pos m Hm) as Hd.
  pose proof (pow2_pos (e + bias) ltac:(blia)) as Hp.
  unfold scale.
  replace (Zdigits2 m - 1 + e + bias) with ((Zdigits2 m - 1) + (e + bias))
    by blia.
  replace (Zdigits2 m + e + bias) with (Zdigits2 m + (e + bias)) by blia.
  rewrite (Z.pow_add_r 2 (Zdigits2 m - 1) (e + bias)) by blia.
  rewrite (Z.pow_add_r 2 (Zdigits2 m) (e + bias)) by blia.
  split; [apply Z.mul_le_mono_nonneg_r | apply Z.mul_lt_mono_pos_r]; blia.
Qed.

(** A smaller value has no more digits before the binary point. *)
Lemma magnitude_le a ea b eb :
  0 < a -> 0 < b -> - bias <= ea -> - bias <= eb ->
  scale a ea <= scale b eb -> Zdigits2 a + ea <= Zdigits2 b + eb.
Proof.
  intros Ha Hb Hea Heb Hle.
  pose proof (scale_digits a ea Ha Hea) as [Hlo _].
  pose proof (scale_digits b eb Hb Heb) as [_ Hhi].
  pose proof (Zdigits2_pos a Ha). pose proof (Zdigits2_pos b Hb).
  assert (2 ^ (Zdigits2 a - 1 + ea + bias) < 2 ^ (Zdigits2 b + eb + bias))
    as Hlt by blia.
  apply Z.pow_lt_mono_r_iff in Hlt; blia.
Qed.

(** *** Shifting right *)

Lemma iter_pos_nat {A} (f : A -> A) p x :
  iter_pos f p x = Nat.iter (Pos.to_nat p) f x.
Proof.
  revert x. induction p as [p IH|p IH|]; intros x; simpl iter_pos.
  - rewrite !IH, Pos2Nat.inj_xI.
    replace (S (2 * Pos.to_nat p))%nat
      with (Pos.to_nat p + (Pos.to_nat p + 1))%nat by lia.
    rewrite !Nat.iter_add. reflexivity.
  - rewrite !IH, Pos2Nat.inj_xO.
    replace (2 * Pos.to_nat p)%nat
      with (Pos.to_nat p + Pos.to_nat p)%nat by lia.
    rewrite Nat.iter_add. reflexivity.
  - reflexivity.
Qed.

Lemma shr_1_spec mrs :
  0 <= shr_m mrs ->
  shr_m (shr_1 mrs) = shr_m mrs / 2
  /\ inexact (shr_1 mrs) = Z.odd (shr_m mrs) || inexact mrs.
Proof.
  destruct mrs as [m r s]. unfold inexact. simpl shr_m.
  destruct m as [|[p|p|]|p]; intros Hm; try lia; simpl;
    try (split; [|reflexivity]).
  - reflexivity.
  - rewrite Pos2Z.inj_xI. apply Z.div_unique with 1; lia.
  - rewrite Pos2Z.inj_xO. apply Z.div_unique with 0; lia.
  - reflexivity.
Qed.

Lemma shr_n_spec k mrs :
  0 <= shr_m mrs ->
  0 <= shr_m (Nat.iter k shr_1 mrs)
  /\ shr_m (Nat.iter k shr_1 mrs) = shr_m mrs / 2 ^ Z.of_nat k
  /\ inexact (Nat.iter k shr_1 mrs)
     = negb (shr_m mrs mod 2 ^ Z.of_nat k =? 0) || inexact mrs.
Proof.
  intros Hm. induction k as [|k (IH0 & IHm & IHi)].
  - simpl Nat.iter. change (2 ^ Z.of_nat 0) with 1.
    rewrite Z.div_1_r, Z.mod_1_r. auto.
  - rewrite Nat.iter_succ.
    destruct (shr_1_spec _ IH0) as [Hm' Hi'].
    rewrite Hm', Hi', IHm, IHi.
    rewrite Nat2Z.inj_succ, Z.pow_succ_r by lia.
    set (q := 2 ^ Z.of_nat k).
    assert (0 < q) as Hq by (apply pow2_pos; lia).
    set (m := shr_m mrs) in *.
    assert (m / q / 2 = m / (2 * q)) as Hdiv.
    { rewrite Z.div_div by lia. f_equal. lia. }
    rewrite Hdiv. split; [apply Z.div_pos; lia|]. split; [reflexivity|].
    rewrite orb_assoc. f_equal.
    pose proof (Z.div_mod m q ltac:(lia)) as E1.
    pose proof (Z.mod_pos_bound m q Hq) as B1.
    pose proof (Z.div_mod m (2 * q) ltac:(lia)) as E2.
    pose proof (Z.mod_pos_bound m (2 * q) ltac:(lia)) as B2.
    pose proof (Z.div_mod (m / q) 2 ltac:(lia)) as E3.
    pose proof (Z.mod_pos_bound (m / q) 2 ltac:(lia)) as B3.
    rewrite Hdiv in E3.
    rewrite Zodd_mod.
    destruct (Z.eqb_spec (m mod (2 * q)) 0) as [H0|H0];
      destruct (Z.eqb_spec (m mod q) 0) as [H1|H1];
      destruct (Z.eqb_spec ((m / q) mod 2) 1) as [H2|H2];
      simpl; try reflexivity; exfalso; nia.
Qed.

Lemma shr_spec mrs e n :
  0 <= shr_m mrs ->
  forall mrs' e', shr mrs e n = (mrs', e') ->
  e' = e + Z.max n 0
  /\ 0 <= shr_m mrs'
  /\ shr_m mrs' = shr_m mrs / 2 ^ Z.max n 0
  /\ inexact mrs' = negb (shr_m mrs mod 2 ^ Z.max n 0 =? 0) || inexact mrs.
Proof.
  intros Hm mrs' e'. unfold shr. destruct n as [|p|p].
  - intros [= <- <-]. simpl Z.max. change (2 ^ 0) with 1.
    rewrite Z.div_1_r, Z.mod_1_r. simpl. repeat split; auto; lia.
  - intros [= <- <-]. rewrite iter_pos_nat.
    replace (Z.max (Z.pos p) 0) with (Z.of_nat (Pos.to_nat p)) by lia.
    destruct (shr_n_spec (Pos.to_nat p) mrs Hm) as (H0 & H1 & H2).
    repeat split; auto; lia.
  - intros [= <- <-]. replace (Z.max (Z.neg p) 0) with 0 by lia.
    change (2 ^ 0) with 1.
    rewrite Z.div_1_r, Z.mod_1_r. simpl. repeat split; auto; lia.
Qed.

Lemma shr_record_of_loc_spec m l :
  shr_m (shr_record_of_loc m l) = m
  /\ inexact (shr_record_of_loc m l) = inexact_loc l.
Proof. destruct l as [|[]]; split; reflexivity. Qed.

Lemma round_nearest_even_bounds mrs :
  shr_m mrs <= round_nearest_even (shr_m mrs) (loc_of_shr_record mrs)
             <= up (shr_m mrs) (inexact mrs).
Proof.
  destruct mrs as [m [] []]; unfold inexact, up; simpl;
    try destruct (Z.even m); lia.
Qed.

Lemma canon_exponent m e : canon m e -> -1074 <= e.
Proof. intros [_ <-]. rewrite fexp_eq. lia. Qed.

(** Cutting to the format's precision keeps a value under any bound
    the format holds exactly. *)
Lemma shr_fexp_upper m e l mB eB :
  0 <= m -> - bias <= e -> canon mB eB -> e <= eB ->
  scale (up m (inexact_loc l)) e <= scale mB eB ->
  forall mrs e', shr_fexp prec emax m e l = (mrs, e') ->
  0 <= shr_m mrs /\ e <= e' /\ e' <= eB
  /\ scale (up (shr_m mrs) (inexact mrs)) e' <= scale mB eB.
Proof.
  intros Hm He HB HeB Hle mrs e' Hshr. unfold shr_fexp in Hshr.
  destruct (shr_record_of_loc_spec m l) as [Hrm Hri].
  apply shr_spec in Hshr; [|rewrite Hrm; exact Hm].
  rewrite Hrm, Hri in Hshr. destruct Hshr as (-> & H0 & Hm' & Hi').
  pose proof (canon_exponent _ _ HB) as HeB'.
  set (k := Z.max (SpecFloat.fexp prec emax (Zdigits2 m + e) - e) 0) in *.
  assert (0 <= k) as Hk by (unfold k; lia).
  assert (e + k <= eB) as Hk'.
  { destruct (Z.eq_dec k 0) as [->|Hk0]; [lia|].
    assert (e + k = SpecFloat.fexp prec emax (Zdigits2 m + e)) as ->
        by (unfold k in *; lia).
    destruct (Z.eq_dec m 0) as [->|Hm0].
    - unfold k in Hk0. simpl Zdigits2 in *. rewrite fexp_eq in *. lia.
    - destruct HB as [HmB <-]. apply fexp_mono.
      apply magnitude_le; try blia.
      eapply Z.le_trans; [|exact Hle].
      apply scale_le; [assumption|]. unfold up. destruct (inexact_loc l); lia. }
  repeat split; try lia.
  set (B' := mB * 2 ^ (eB - (e + k))).
  assert (scale mB eB = scale (B' * 2 ^ k) e) as HBs.
  { unfold B'. rewrite scale_shift by blia.
    rewrite scale_shift by blia. f_equal. lia. }
  assert (scale mB eB = scale B' (e + k)) as HBs'.
  { unfold B'. rewrite scale_shift by blia. f_equal. lia. }
  rewrite HBs in Hle. apply scale_le in Hle; [|assumption].
  rewrite HBs'. apply scale_le; [blia|].
  assert (0 < 2 ^ k) as HQ by (apply pow2_pos; lia).
  pose proof (Z.div_mod m (2 ^ k) ltac:(lia)) as Hdm.
  pose proof (Z.mod_pos_bound m (2 ^ k) HQ) as Hmod.
  rewrite Hm', Hi'. unfold up in *.
  destruct (Z.eqb_spec (m mod 2 ^ k) 0) as [Hr|Hr];
    destruct (inexact_loc l); simpl; nia.
Qed.

(** Cutting to the format's precision keeps a value above any bound
    the format holds exactly. *)
Lemma shr_fexp_lower m e l mL eL :
  0 < m -> - bias <= e -> canon mL eL ->
  scale mL eL <= scale m e ->
  forall mrs e', shr_fexp prec emax m e l = (mrs, e') ->
  0 < shr_m mrs /\ e <= e' /\ scale mL eL <= scale (shr_m mrs) e'.
Proof.
  intros Hm He HL Hle mrs e' Hshr. unfold shr_fexp in Hshr.
  destruct (shr_record_of_loc_spec m l) as [Hrm Hri].
  apply shr_spec in Hshr; [|rewrite Hrm; lia].
  rewrite Hrm, Hri in Hshr. destruct Hshr as (-> & H0 & Hm' & Hi').
  pose proof (canon_exponent _ _ HL) as HeL.
  destruct HL as [HmL HcL].
  set (d := Zdigits2 m) in *.
  set (k := Z.max (SpecFloat.fexp prec emax (d + e) - e) 0) in *.
  assert (0 <= k) as Hk by (unfold k; lia).
  destruct (Z.eq_dec k 0) as [Hk0|Hk0].
  { rewrite Hk0 in *. change (2 ^ 0) with 1 in Hm'.
    rewrite Z.div_1_r in Hm'. rewrite Hm', Z.add_0_r. repeat split; lia. }
  assert (e + k = SpecFloat.fexp prec emax (d + e)) as Hek
      by (unfold k in *; lia).
  assert (0 < 2 ^ k) as HQ by (apply pow2_pos; lia).
  pose proof (magnitude_le mL eL m e HmL Hm ltac:(blia) He Hle) as Hmag.
  fold d in Hmag.
  pose proof (Zdigits2_pos mL HmL) as HdL.
  destruct (Z.eq_dec (Zdigits2 mL + eL) (d + e)) as [Heq|Hne].
  - assert (eL = e + k) as HeLk by (rewrite Hek, <- Heq; auto).
    assert (mL * 2 ^ k <= m) as Hmk.
    { apply (scale_le _ _ e He). rewrite scale_shift by blia.
      now rewrite <- HeLk. }
    assert (mL <= m / 2 ^ k) as Hq
        by (apply Z.div_le_lower_bound; [lia|]; lia).
    rewrite Hm'. repeat split; try lia.
    rewrite HeLk. apply scale_le; [blia | exact Hq].
  - assert (k <= d - 1) as Hkd.
    { pose proof (Zdigits2_pos m Hm) as Hd. fold d in Hd.
      unfold k. rewrite fexp_eq. lia. }
    pose proof (Zdigits2_bounds m Hm) as [Hlo _]. fold d in Hlo.
    assert (2 ^ (d - 1 - k) <= m / 2 ^ k) as Hq.
    { apply Z.div_le_lower_bound; [lia|].
      rewrite <- Z.pow_add_r by lia.
      replace (k + (d - 1 - k)) with (d - 1) by lia. exact Hlo. }
    assert (0 < 2 ^ (d - 1 - k)) by (apply pow2_pos; lia).
    rewrite Hm'. repeat split; try lia.
    pose proof (scale_digits mL eL HmL ltac:(blia)) as [_ Hhi].
    apply Z.lt_le_incl. eapply Z.lt_le_trans; [exact Hhi|].
    apply Z.le_trans with (scale (2 ^ (d - 1 - k)) (e + k)).
    + unfold scale. rewrite <- Z.pow_add_r by blia.
      apply Z.pow_le_mono_r; blia.
    + apply scale_le; [blia | exact Hq].
Qed.

(** *** Rounding *)

Lemma binary_round_aux_upper s mx ex lx mB eB :
  0 <= mx -> - bias <= ex -> canon mB eB -> eB <= 971 -> ex <= eB ->
  scale (up mx (inexact_loc lx)) ex <= scale mB eB ->
  binary_round_aux prec emax s mx ex lx = S754_zero s
  \/ exists m e,
       binary_round_aux prec emax s mx ex lx = S754_finite s m e
       /\ scale (Z.pos m) e <= scale mB eB.
Proof.
  intros Hm He HB HeB Hex Hle. unfold binary_round_aux.
  destruct (shr_fexp prec emax mx ex lx) as [mrs1 e1] eqn:E1.
  destruct (shr_fexp_upper _ _ _ _ _ Hm He HB Hex Hle _ _ E1)
    as (H1 & He1 & He1B & Hle1).
  pose proof (round_nearest_even_bounds mrs1) as [Hr1 Hr2].
  set (m2 := round_nearest_even (shr_m mrs1) (loc_of_shr_record mrs1)) in *.
  destruct (shr_fexp prec emax m2 e1 loc_Exact) as [mrs2 e2] eqn:E2.
  assert (scale (up m2 (inexact_loc loc_Exact)) e1 <= scale mB eB) as Hle2.
  { eapply Z.le_trans; [|exact Hle1]. apply scale_le; [blia | exact Hr2]. }
  assert (0 <= m2) as Hm2 by lia.
  assert (- bias <= e1) as Hb1 by lia.
  destruct (shr_fexp_upper _ _ _ _ _ Hm2 Hb1 HB He1B Hle2 _ _ E2)
    as (H2 & He2 & He2B & Hle3).
  destruct (shr_m mrs2) as [|p|p] eqn:E3; [now left | | lia].
  right. exists p, e2. split.
  - replace (e2 <=? emax - prec) with true; [reflexivity|].
    symmetry. apply Z.leb_le. change (emax - prec) with 971. lia.
  - eapply Z.le_trans; [|exact Hle3].
    apply scale_le; [blia|]. unfold up. destruct (inexact mrs2); lia.
Qed.

Lemma binary_round_aux_lower s mx ex lx mL eL :
  0 < mx -> - bias <= ex -> canon mL eL ->
  scale mL eL <= scale mx ex ->
  binary_round_aux prec emax s mx ex lx = S754_infinity s
  \/ exists m e,
       binary_round_aux prec emax s mx ex lx = S754_finite s m e
       /\ scale mL eL <= scale (Z.pos m) e.
Proof.
  intros Hm He HL Hle. unfold binary_round_aux.
  destruct (shr_fexp prec emax mx ex lx) as [mrs1 e1] eqn:E1.
  destruct (shr_fexp_lower _ _ _ _ _ Hm He HL Hle _ _ E1)
    as (H1 & He1 & Hle1).
  pose proof (round_nearest_even_bounds mrs1) as [Hr1 Hr2].
  set (m2 := round_nearest_even (shr_m mrs1) (loc_of_shr_record mrs1)) in *.
  destruct (shr_fexp prec emax m2 e1 loc_Exact) as [mrs2 e2] eqn:E2.
  assert (scale mL eL <= scale m2 e1) as Hle2.
  { eapply Z.le_trans; [exact Hle1|]. apply scale_le; [blia | exact Hr1]. }
  assert (0 < m2) as Hm2 by lia.
  assert (- bias <= e1) as Hb1 by lia.
  destruct (shr_fexp_lower _ _ _ _ _ Hm2 Hb1 HL Hle2 _ _ E2)
    as (H2 & He2 & Hle3).
  destruct (shr_m mrs2) as [|p|p] eqn:E3; try lia.
  destruct (e2 <=? emax - prec); [right | now left].
  exists p, e2. split; [reflexivity | exact Hle3].
Qed.

(** *** Numbers in the format *)

Lemma valid_canon s m e :
  valid_binary (S754_finite s m e) = true ->
  canon (Z.pos m) e /\ e <= 971.
Proof.
  simpl. unfold bounded, canonical_mantissa.
  rewrite andb_true_iff, Z.eqb_eq, Z.leb_le.
  intros [Hc He]. repeat split; auto; lia.
Qed.

Lemma canon_digits m e : canon m e -> Zdigits2 m <= 53.
Proof. intros [Hm Hc]. rewrite fexp_eq in Hc. lia. Qed.

Lemma canon_normal m e : canon m e -> -1074 < e -> Zdigits2 m = 53.
Proof. intros [Hm Hc] He. rewrite fexp_eq in Hc. lia. Qed.

Lemma canon_scale_lt m1 e1 m2 e2 :
  canon m1 e1 -> canon m2 e2 -> e1 < e2 -> scale m1 e1 < scale m2 e2.
Proof.
  intros H1 H2 Hlt.
  pose proof (canon_exponent _ _ H1) as He1.
  pose proof (canon_digits _ _ H1) as Hd1.
  pose proof (canon_normal _ _ H2 ltac:(lia)) as Hd2.
  destruct H1 as [Hm1 _], H2 as [Hm2 _].
  pose proof (scale_digits m1 e1 Hm1 ltac:(blia)) as [_ Hhi].
  pose proof (scale_digits m2 e2 Hm2 ltac:(blia)) as [Hlo _].
  eapply Z.lt_le_trans; [exact Hhi|].
  eapply Z.le_trans; [|exact Hlo].
  apply Z.pow_le_mono_r; blia.
Qed.

Lemma scale_compare a b e :
  - bias <= e -> (scale a e ?= scale b e) = (a ?= b).
Proof.
  intros He. pose proof (scale_lt a b e He). pose proof (scale_lt b a e He).
  destruct (Z.compare_spec a b) as [->|H1|H1].
  - apply Z.compare_refl.
  - apply Z.compare_lt_iff. tauto.
  - apply Z.compare_gt_iff. tauto.
Qed.

Lemma compare_canon m1 e1 m2 e2 :
  canon (Z.pos m1) e1 -> canon (Z.pos m2) e2 ->
  match e1 ?= e2 with
  | Eq => Pos.compare_cont Eq m1 m2
  | Lt => Lt
  | Gt => Gt
  end = (scale (Z.pos m1) e1 ?= scale (Z.pos m2) e2).
Proof.
  intros H1 H2. symmetry. destruct (Z.compare_spec e1 e2) as [->|Hlt|Hgt].
  - rewrite scale_compare by (pose proof (canon_exponent _ _ H2); blia).
    reflexivity.
  - apply Z.compare_lt_iff. now apply canon_scale_lt.
  - apply Z.compare_gt_iff. now apply canon_scale_lt.
Qed.

(** On numbers of the format the comparison of the specification is
    the comparison of the values. *)
Lemma SFcompare_signed s1 m1 e1 s2 m2 e2 :
  canon (Z.pos m1) e1 -> canon (Z.pos m2) e2 ->
  SFcompare (S754_finite s1 m1 e1) (S754_finite s2 m2 e2)
  = Some (signed s1 m1 e1 ?= signed s2 m2 e2).
Proof.
  intros H1 H2.
  pose proof (scale_pos (Z.pos m1) e1
                ltac:(pose proof (canon_exponent _ _ H1); blia) ltac:(lia)).
  pose proof (scale_pos (Z.pos m2) e2
                ltac:(pose proof (canon_exponent _ _ H2); blia) ltac:(lia)).
  unfold SFcompare, signed, cond_Zopp. f_equal.
  destruct s1, s2.
  - rewrite Z.compare_opp, <- (compare_canon m2 e2 m1 e1) by assumption.
    rewrite (Z.compare_antisym e1 e2).
    change (Pos.compare_cont Eq m2 m1) with (Pos.compare m2 m1).
    change (PosDef.Pos.compare_cont Eq m1 m2) with (Pos.compare m1 m2).
    rewrite (Pos.compare_antisym m1 m2).
    destruct (e1 ?= e2); simpl; try reflexivity.
  - symmetry. apply Z.compare_lt_iff. lia.
  - symmetry. apply Z.compare_gt_iff. lia.
  - now apply compare_canon.
Qed.

Lemma iter_xO m d :
  Z.pos (PosDef.Pos.iter xO m d) = Z.pos m * 2 ^ Z.pos d.
Proof.
  change (PosDef.Pos.iter xO m d) with (Pos.iter xO m d).
  apply (Pos.iter_ind positive xO m
           (fun p a => Z.pos a = Z.pos m * 2 ^ Z.pos p)).
  - rewrite Pos2Z.inj_xO. change (2 ^ 1) with 2. lia.
  - intros p a IH. rewrite Pos2Z.inj_xO, IH, Pos2Z.inj_succ.
    rewrite Z.pow_succ_r by lia. lia.
Qed.

Lemma shl_align_spec mx ex ex' :
  - bias <= ex' ->
  snd (shl_align mx ex ex') = Z.min ex ex'
  /\ scale (Z.pos (fst (shl_align mx ex ex'))) (Z.min ex ex')
     = scale (Z.pos mx) ex.
Proof.
  intros He. unfold shl_align.
  destruct (ex' - ex) as [|d|d] eqn:E; cbn [fst snd].
  - replace (Z.min ex ex') with ex by lia. auto.
  - replace (Z.min ex ex') with ex by lia. auto.
  - replace (Z.min ex ex') with ex' by lia. split; [reflexivity|].
    rewrite iter_xO, scale_shift by lia. f_equal. lia.
Qed.

Lemma binary_round_at_most m e mB eB :
  - bias <= e -> canon mB eB -> eB <= 971 ->
  scale (Z.pos m) e <= scale mB eB ->
  at_most (binary_round prec emax false m e) mB eB.
Proof.
  intros He HB HeB Hle. unfold binary_round.
  set (e' := SpecFloat.fexp prec emax (Z.pos (digits2_pos m) + e)).
  assert (- bias <= e') as He' by (unfold e'; rewrite fexp_eq; blia).
  destruct (shl_align_spec m e e' He') as [Hs Hv].
  destruct (shl_align m e e') as [mz ez]. simpl in Hs, Hv. subst ez.
  assert (e' <= eB) as He'B.
  { pose proof (canon_exponent _ _ HB) as HeB'.
    destruct HB as [HmB HcB]. rewrite <- HcB. apply fexp_mono.
    apply (magnitude_le (Z.pos m) e mB eB); try assumption; blia. }
  apply binary_round_aux_upper; try assumption; try lia.
  cbn [inexact_loc up]. rewrite Hv. exact Hle.
Qed.

Lemma binary_round_at_least m e mL eL :
  - bias <= e -> canon mL eL ->
  scale mL eL <= scale (Z.pos m) e ->
  at_least (binary_round prec emax false m e) mL eL.
Proof.
  intros He HL Hle. unfold binary_round.
  set (e' := SpecFloat.fexp prec emax (Z.pos (digits2_pos m) + e)).
  assert (- bias <= e') as He' by (unfold e'; rewrite fexp_eq; blia).
  destruct (shl_align_spec m e e' He') as [Hs Hv].
  destruct (shl_align m e e') as [mz ez]. simpl in Hs, Hv. subst ez.
  apply binary_round_aux_lower; try assumption; try lia.
Qed.

Lemma binary_normalize_at_most M e mB eB :
  0 <= M -> - bias <= e -> canon mB eB -> eB <= 971 ->
  scale M e <= scale mB eB ->
  at_most (binary_normalize prec emax M e false) mB eB.
Proof.
  intros HM He HB HeB Hle. destruct M as [|p|p]; try lia.
  - now left.
  - now apply binary_round_at_most.
Qed.

Lemma binary_normalize_at_least M e mL eL :
  - bias <= e -> canon mL eL ->
  scale mL eL <= scale M e ->
  at_least (binary_normalize prec emax M e false) mL eL.
Proof.
  intros He HL Hle.
  assert (0 < scale mL eL) as HposL.
  { apply scale_pos; [pose proof (canon_exponent _ _ HL); blia | apply HL]. }
  assert (0 < M) as HM.
  { apply (scale_lt 0 M e He). unfold scale at 1. lia. }
  destruct M as [|p|p]; try lia.
  now apply binary_round_at_least.
Qed.

(** *** The four operations *)

Lemma aligned_value s m e ez :
  - bias <= ez -> ez <= e ->
  scale (cond_Zopp s (Z.pos (fst (shl_align m e ez)))) ez = signed s m e.
Proof.
  intros Hez Hle. destruct (shl_align_spec m e ez Hez) as [_ Hv].
  replace (Z.min e ez) with ez in Hv by lia.
  unfold signed. destruct s; simpl; [|exact Hv].
  rewrite <- Hv. unfold scale. lia.
Qed.

Lemma scale_add a b e : scale (a + b) e = scale a e + scale b e.
Proof. unfold scale. ring. Qed.

Lemma scale_sub a b e : scale (a - b) e = scale a e - scale b e.
Proof. unfold scale. ring. Qed.

Lemma SFsub_at_least x y mL eL :
  valid_binary x = true -> valid_binary y = true ->
  finite x = true -> finite y = true ->
  canon mL eL -> scale mL eL <= val x - val y ->
  at_least (SF64sub x y) mL eL.
Proof.
  intros Vx Vy Fx Fy HL Hle.
  assert (0 < scale mL eL) as HposL.
  { apply scale_pos; [pose proof (canon_exponent _ _ HL); blia | apply HL]. }
  destruct x as [sx|sx| |sx mx ex], y as [sy|sy| |sy my ey];
    try discriminate; simpl in Hle; try lia.
  - (* 0 - y *)
    destruct (valid_canon _ _ _ Vy) as [Cy _].
    pose proof (scale_pos (Z.pos my) ey
                  ltac:(pose proof (canon_exponent _ _ Cy); blia) ltac:(lia)).
    unfold signed, cond_Zopp in Hle. destruct sy; [|lia].
    right. exists my, ey. split; [reflexivity | lia].
  - (* x - 0 *)
    destruct (valid_canon _ _ _ Vx) as [Cx _].
    pose proof (scale_pos (Z.pos mx) ex
                  ltac:(pose proof (canon_exponent _ _ Cx); blia) ltac:(lia)).
    unfold signed, cond_Zopp in Hle. destruct sx; [lia|].
    right. exists mx, ex. split; [reflexivity | lia].
  - destruct (valid_canon _ _ _ Vx) as [Cx _].
    destruct (valid_canon _ _ _ Vy) as [Cy _].
    pose proof (canon_exponent _ _ Cx). pose proof (canon_exponent _ _ Cy).
    unfold SF64sub, SFsub.
    apply binary_normalize_at_least; [blia | assumption |].
    rewrite scale_sub, !aligned_value by blia. exact Hle.
Qed.

Lemma SFadd_at_most x y m1 e1 m2 e2 mB eB :
  valid_binary x = true -> valid_binary y = true ->
  at_most x m1 e1 -> at_most y m2 e2 ->
  0 <= scale m1 e1 -> 0 <= scale m2 e2 ->
  canon mB eB -> eB <= 971 ->
  scale m1 e1 + scale m2 e2 <= scale mB eB ->
  at_most (SF64add x y) mB eB.
Proof.
  intros Vx Vy [->|(mx & ex & -> & Hx)] [->|(my & ey & -> & Hy)]
    H1 H2 HB HeB Hle.
  - now left.
  - right. exists my, ey. split; [reflexivity | lia].
  - right. exists mx, ex. split; [reflexivity | lia].
  - destruct (valid_canon _ _ _ Vx) as [Cx _].
    destruct (valid_canon _ _ _ Vy) as [Cy _].
    pose proof (canon_exponent _ _ Cx). pose proof (canon_exponent _ _ Cy).
    unfold SF64add, SFadd.
    apply binary_normalize_at_most; try assumption; try blia.
    + cbn [cond_Zopp]. lia.
    + rewrite scale_add.
      rewrite (aligned_value false mx ex), (aligned_value false my ey)
        by blia.
      unfold signed, cond_Zopp. lia.
Qed.

Lemma SFadd_at_least x y m1 e1 m2 e2 mL eL :
  valid_binary x = true -> valid_binary y = true ->
  at_least x m1 e1 -> at_least y m2 e2 ->
  canon mL eL ->
  scale mL eL <= scale m1 e1 + scale m2 e2 ->
  at_least (SF64add x y) mL eL.
Proof.
  intros Vx Vy [->|(mx & ex & -> & Hx)] [->|(my & ey & -> & Hy)] HL Hle;
    try (now left).
  destruct (valid_canon _ _ _ Vx) as [Cx _].
  destruct (valid_canon _ _ _ Vy) as [Cy _].
  pose proof (canon_exponent _ _ Cx). pose proof (canon_exponent _ _ Cy).
  unfold SF64add, SFadd.
  apply binary_normalize_at_least; try assumption; try blia.
  rewrite scale_add.
  rewrite (aligned_value false mx ex), (aligned_value false my ey) by blia.
  unfold signed, cond_Zopp. lia.
Qed.

Lemma canon_le_exponent m e mB eB :
  canon m e -> canon mB eB -> scale m e <= scale mB eB -> e <= eB.
Proof.
  intros Hc HB Hle.
  pose proof (canon_exponent _ _ Hc). pose proof (canon_exponent _ _ HB).
  destruct Hc as [Hm Hc], HB as [HmB HcB].
  rewrite <- Hc, <- HcB. apply fexp_mono.
  apply magnitude_le; try assumption; blia.
Qed.

Lemma scale_mul a ea b eb :
  - bias <= ea -> - bias <= eb -> - bias <= ea + eb ->
  scale (a * b) (ea + eb) * 2 ^ bias = scale a ea * scale b eb.
Proof.
  intros Ha Hb Hab. unfold scale.
  replace (ea + eb + bias + bias) with ((ea + bias) + (eb + bias)) by lia.
  transitivity (a * b * (2 ^ (ea + eb + bias) * 2 ^ bias)); [ring|].
  rewrite <- Z.pow_add_r by blia.
  replace (ea + eb + bias + bias) with ((ea + bias) + (eb + bias)) by lia.
  rewrite Z.pow_add_r by blia. ring.
Qed.

Lemma pow2_bias_pos : 0 < 2 ^ bias.
Proof. apply pow2_pos. blia. Qed.

Lemma SFmul_at_most x y m1 e1 m2 e2 mB eB :
  valid_binary x = true -> valid_binary y = true ->
  at_most x m1 e1 -> at_most y m2 e2 ->
  canon m1 e1 -> canon m2 e2 ->
  canon mB eB -> eB <= 971 -> e1 + e2 <= eB ->
  scale m1 e1 * scale m2 e2 <= scale mB eB * 2 ^ bias ->
  at_most (SF64mul x y) mB eB.
Proof.
  intros Vx Vy [->|(mx & ex & -> & Hx)] [->|(my & ey & -> & Hy)]
    C1 C2 HB HeB He Hle; try (now left).
  destruct (valid_canon _ _ _ Vx) as [Cx _].
  destruct (valid_canon _ _ _ Vy) as [Cy _].
  pose proof (canon_exponent _ _ Cx). pose proof (canon_exponent _ _ Cy).
  pose proof (canon_le_exponent _ _ _ _ Cx C1 Hx).
  pose proof (canon_le_exponent _ _ _ _ Cy C2 Hy).
  unfold SF64mul, SFmul. cbn [xorb].
  change (Z.pos (mx * my)) with (Z.pos mx * Z.pos my).
  apply binary_round_aux_upper; try assumption; try blia.
  cbn [inexact_loc up].
  pose proof pow2_bias_pos as Hb.
  apply (Z.mul_le_mono_pos_r _ _ (2 ^ bias) Hb).
  rewrite scale_mul by blia.
  pose proof (scale_pos (Z.pos mx) ex ltac:(blia) ltac:(lia)).
  pose proof (scale_pos (Z.pos my) ey ltac:(blia) ltac:(lia)).
  eapply Z.le_trans; [|exact Hle].
  apply Z.mul_le_mono_nonneg; lia.
Qed.

Lemma SFmul_at_least x y m1 e1 m2 e2 mL eL :
  valid_binary x = true -> valid_binary y = true ->
  at_least x m1 e1 -> at_least y m2 e2 ->
  0 <= scale m1 e1 -> 0 <= scale m2 e2 ->
  canon mL eL ->
  scale mL eL * 2 ^ bias <= scale m1 e1 * scale m2 e2 ->
  at_least (SF64mul x y) mL eL.
Proof.
  intros Vx Vy [->|(mx & ex & -> & Hx)] [->|(my & ey & -> & Hy)]
    H1 H2 HL Hle; try (now left).
  destruct (valid_canon _ _ _ Vx) as [Cx _].
  destruct (valid_canon _ _ _ Vy) as [Cy _].
  pose proof (canon_exponent _ _ Cx). pose proof (canon_exponent _ _ Cy).
  unfold SF64mul, SFmul. cbn [xorb].
  change (Z.pos (mx * my)) with (Z.pos mx * Z.pos my).
  apply binary_round_aux_lower; try assumption; try blia; try lia.
  pose proof pow2_bias_pos as Hb.
  apply (Z.mul_le_mono_pos_r _ _ (2 ^ bias) Hb).
  rewrite scale_mul by blia.
  eapply Z.le_trans; [exact Hle|].
  apply Z.mul_le_mono_nonneg; lia.
Qed.

Lemma new_location_inexact n k :
  inexact_loc (new_location n k) = negb (k =? 0).
Proof.
  unfold new_location, new_location_even, new_location_odd.
  destruct (Z.even n); destruct (k =? 0); reflexivity.
Qed.

Lemma SFdiv_at_most x y m1 e1 m2 e2 mB eB :
  valid_binary x = true -> valid_binary y = true ->
  at_most x m1 e1 -> at_least y m2 e2 ->
  0 < m1 -> 0 < m2 -> - bias <= e1 -> - bias <= e2 ->
  canon mB eB -> eB <= 971 ->
  Zdigits2 m1 + e1 - (Zdigits2 m2 + e2) <= Zdigits2 mB + eB ->
  scale m1 e1 * 2 ^ bias <= scale mB eB * scale m2 e2 ->
  at_most (SF64div x y) mB eB.
Proof.
  intros Vx Vy [->|(mx & ex & -> & Hx)] [->|(my & ey & -> & Hy)]
    Hm1 Hm2 He1 He2 HB HeB Hmag Hle; try (now left).
  destruct (valid_canon _ _ _ Vx) as [Cx Hex].
  destruct (valid_canon _ _ _ Vy) as [Cy Hey].
  pose proof (canon_exponent _ _ Cx) as Hex'.
  pose proof (canon_exponent _ _ Cy) as Hey'.
  pose proof (canon_exponent _ _ HB) as HeB'.
  unfold SF64div, SFdiv, SFdiv_core_binary. cbn [xorb].
  set (d1 := Zdigits2 (Z.pos mx)). set (d2 := Zdigits2 (Z.pos my)).
  set (e' := Z.min (SpecFloat.fexp prec emax (d1 + ex - (d2 + ey))) (ex - ey)).
  remember (ex - ey - e') as s eqn:Hsdef.
  assert (0 <= s) as Hs by (subst s; unfold e'; lia).
  assert (- bias <= e') as He'.
  { unfold e'. rewrite fexp_eq. blia. }
  assert (e' <= eB) as He'B.
  { pose proof (magnitude_le (Z.pos mx) ex m1 e1 ltac:(lia) Hm1
                  ltac:(blia) He1 Hx) as M1.
    pose proof (magnitude_le m2 e2 (Z.pos my) ey Hm2 ltac:(lia)
                  He2 ltac:(blia) Hy) as M2.
    destruct HB as [HmB HcB]. rewrite <- HcB.
    apply Z.le_trans with (SpecFloat.fexp prec emax (d1 + ex - (d2 + ey)));
      [unfold e'; lia|].
    apply fexp_mono. unfold d1, d2. lia. }
  set (m' := match s with
             | 0 => Z.pos mx
             | Z.pos _ => Z.shiftl (Z.pos mx) s
             | Z.neg _ => 0
             end).
  assert (m' = Z.pos mx * 2 ^ s) as Hm'.
  { unfold m'. clear Hsdef. destruct s as [|p|p]; try lia.
    apply Z.shiftl_mul_pow2. apply Pos2Z.is_nonneg. }
  destruct (Z.div_eucl m' (Z.pos my)) as [q r] eqn:Ediv.
  pose proof (Z_div_mod m' (Z.pos my) ltac:(lia)) as Hdm.
  rewrite Ediv in Hdm. destruct Hdm as [Hdm Hr].
  assert (0 <= m') as Hm'0 by (rewrite Hm'; pose proof (pow2_pos s Hs); lia).
  assert (0 <= q) as Hq by nia.
  apply binary_round_aux_upper; try assumption.
  rewrite new_location_inexact.
  set (B' := mB * 2 ^ (eB - e')).
  assert (scale mB eB = scale B' e') as ->.
  { unfold B'. rewrite scale_shift by blia. f_equal. lia. }
  apply scale_le; [assumption|].
  assert (m' <= B' * Z.pos my) as Hval.
  { set (K := ey + e' + bias + bias).
    assert (0 <= K) as HK by (unfold K; blia).
    apply (Z.mul_le_mono_pos_r _ _ (2 ^ K) (pow2_pos K HK)).
    pose proof (scale_pos (Z.pos mx) ex ltac:(blia) ltac:(lia)).
    pose proof pow2_bias_pos.
    apply Z.le_trans with (scale (Z.pos mx) ex * 2 ^ bias).
    { apply Z.eq_le_incl. rewrite Hm'. unfold scale.
      rewrite <- !Z.mul_assoc, <- !Z.pow_add_r by blia.
      do 2 f_equal. unfold K. lia. }
    apply Z.le_trans with (scale mB eB * scale m2 e2).
    { eapply Z.le_trans; [|exact Hle].
      apply Z.mul_le_mono_nonneg_r; lia. }
    apply Z.le_trans with (scale mB eB * scale (Z.pos my) ey).
    { apply Z.mul_le_mono_nonneg_l; [|exact Hy].
      apply Z.lt_le_incl, scale_pos; [blia | apply HB]. }
    apply Z.eq_le_incl. unfold B', scale.
    transitivity (mB * Z.pos my * (2 ^ (eB + bias) * 2 ^ (ey + bias)));
      [ring|].
    transitivity (mB * Z.pos my * (2 ^ (eB - e') * 2 ^ K)); [|ring].
    rewrite <- !Z.pow_add_r by blia. do 2 f_equal. unfold K. lia. }
  unfold up. destruct (Z.eqb_spec r 0) as [Hr0|Hr0]; cbn [negb]; nia.
Qed.

Import JS Zod ContractCalculator.
Local Open Scope string_scope.

(** ** Facts about the schemas *)

Lemma In_run_checks p x cs i :
  In i (run_checks p x cs) <-> exists c, In c cs /\ run_check p x c = Some i.
Proof.
  induction cs as [|c cs IH]; simpl.
  - split; [intros [] | intros (c & [] & _)].
  - destruct (run_check p x c) as [j|] eqn:E; simpl; rewrite IH; split.
    + intros [<- | (c' & Hc & H)]; eauto.
    + intros (c' & [<- | Hc] & H); [left; congruence | eauto].
    + intros (c' & Hc & H); eauto.
    + intros (c' & [<- | Hc] & H); [congruence | eauto].
Qed.


Lemma parse_number_issues s k x :
  snd (parse_number s [k] x) = field_issues s k x.
Proof.
  unfold parse_number, field_issues.
  destruct (isNaN x); [reflexivity|].
  destruct (run_checks [k] x (checks s)); reflexivity.
Qed.

Lemma parse_number_aborted s p x :
  fst (parse_number s p x) = aborted <-> isNaN x = true.
Proof.
  unfold parse_number. destruct (isNaN x); simpl.
  - tauto.
  - destruct (run_checks p x (checks s)); simpl; split; discriminate.
Qed.

Lemma merge_aborted a b : merge a b = aborted <-> a = aborted \/ b = aborted.
Proof. destruct a, b; simpl; split; intros; intuition discriminate. Qed.

Lemma parse_object_issues shape input :
  snd (parse_object shape input)
  = flat_map (fun ks => field_issues (snd ks) (fst ks) (input (fst ks))) shape.
Proof.
  induction shape as [|[k s] shape IH]; simpl; [reflexivity|].
  rewrite <- IH, <- parse_number_issues.
  destruct (parse_number s [k] (input k)), (parse_object shape input).
  reflexivity.
Qed.

Lemma parse_object_aborted shape input :
  fst (parse_object shape input) = aborted
  <-> exists ks, In ks shape /\ isNaN (input (fst ks)) = true.
Proof.
  induction shape as [|[k s] shape IH]; simpl.
  - split; [discriminate | intros (? & [] & _)].
  - pose proof (parse_number_aborted s [k] (input k)) as Hn.
    destruct (parse_number s [k] (input k)) as [st is_].
    destruct (parse_object shape input) as [st' is'].
    simpl in *. rewrite merge_aborted, Hn, IH. split.
    + intros [H | (ks & Hin & H)]; [exists (k, s) | exists ks]; auto.
    + intros (ks & [<- | Hin] & H); [left | right; exists ks]; auto.
Qed.

Lemma safeParse_issues schema input :
  safeParse schema input
  = (snd (parse_object (inner schema) input)
     ++ if existsb (fun ks => isNaN (input (fst ks))) (inner schema) then []
        else if refinement schema input then []
        else [{| code := custom; path := refinement_path schema;
                 message := refinement_message schema |}])%list.
Proof.
  unfold safeParse, parse_effects.
  pose proof (parse_object_aborted (inner schema) input) as Ha.
  destruct (parse_object (inner schema) input) as [st is_]. simpl in *.
  destruct (existsb _ (inner schema)) eqn:E.
  - apply existsb_exists in E. apply Ha in E. subst st.
    simpl. now rewrite List.app_nil_r.
  - assert (st <> aborted) as Hst.
    { intros H. apply Ha in H. apply existsb_exists in H. congruence. }
    destruct st; try congruence;
      destruct (refinement schema input); simpl; now rewrite ?List.app_nil_r.
Qed.

Local Open Scope float_scope.

(** ** Order on numbers *)

Lemma SFcompare_antisym a b :
  SFcompare b a = option_map CompOpp (SFcompare a b).
Proof.
  destruct a as [sa|sa| |sa ma ea], b as [sb|sb| |sb mb eb]; simpl;
    try reflexivity; try (destruct sa; reflexivity);
    try (destruct sb; reflexivity);
    try (destruct sa, sb; reflexivity).
  change (PosDef.Pos.compare_cont Eq mb ma) with (Pos.compare mb ma).
  change (PosDef.Pos.compare_cont Eq ma mb) with (Pos.compare ma mb).
  rewrite (Z.compare_antisym ea eb), (Pos.compare_antisym ma mb).
  destruct sa, sb; try reflexivity;
    destruct (ea ?= eb)%Z; simpl; try reflexivity;
    destruct (ma ?= mb)%positive; reflexivity.
Qed.

Lemma leb_not_ltb x y : (x <=? y) = true -> (y <? x) = false.
Proof.
  rewrite leb_spec, ltb_spec. unfold SFleb, SFltb.
  rewrite (SFcompare_antisym (Prim2SF x) (Prim2SF y)).
  destruct (SFcompare (Prim2SF x) (Prim2SF y)) as [[]|]; simpl; congruence.
Qed.

Lemma ltb_not_leb x y : (x <? y) = true -> (y <=? x) = false.
Proof.
  rewrite leb_spec, ltb_spec. unfold SFleb, SFltb.
  rewrite (SFcompare_antisym (Prim2SF x) (Prim2SF y)).
  destruct (SFcompare (Prim2SF x) (Prim2SF y)) as [[]|]; simpl; congruence.
Qed.

Lemma ltb_not_ltb x y : (x <? y) = true -> (y <? x) = false.
Proof.
  rewrite !ltb_spec. unfold SFltb.
  rewrite (SFcompare_antisym (Prim2SF x) (Prim2SF y)).
  destruct (SFcompare (Prim2SF x) (Prim2SF y)) as [[]|]; simpl; congruence.
Qed.

Lemma SFcompare_not_nan a b c :
  SFcompare a b = Some c -> a <> S754_nan /\ b <> S754_nan.
Proof. destruct a, b; simpl; intros H; split; congruence. Qed.

Lemma leb_not_nan x y :
  (x <=? y) = true -> isNaN x = false /\ isNaN y = false.
Proof.
  rewrite leb_spec. unfold SFleb, isNaN.
  destruct (SFcompare (Prim2SF x) (Prim2SF y)) eqn:E; [|discriminate].
  apply SFcompare_not_nan in E. intros _.
  destruct (Prim2SF x), (Prim2SF y); intuition congruence.
Qed.

Lemma ltb_not_nan x y :
  (x <? y) = true -> isNaN x = false /\ isNaN y = false.
Proof.
  rewrite ltb_spec. unfold SFltb, isNaN.
  destruct (SFcompare (Prim2SF x) (Prim2SF y)) eqn:E; [|discriminate].
  apply SFcompare_not_nan in E. intros _.
  destruct (Prim2SF x), (Prim2SF y); intuition congruence.
Qed.

Lemma isInteger_not_nan x : isInteger x = true -> isNaN x = false.
Proof. unfold isInteger, isNaN. destruct (Prim2SF x); congruence. Qed.

(** ** The issues of [formSchema] *)

Lemma validate_issues m now d :
  validate m now d
  = (field_issues
       (coerce_number "Contract value is required."
        |> positive "Contract value must be a positive number.")
       "contractValue" (contractValue d)
     ++ field_issues
       (coerce_number "Issue year is required." |> int
        |> min 1900 "Year must be 1900 or later."
        |> max (currentYear m) "Year cannot be in the future.")
       "issueYear" (issueYear d)
     ++ field_issues
       (coerce_number "Renewal year is required." |> int
        |> min 1900 "Year must be 1900 or later.")
       "renewalYear" (renewalYear d)
     ++ if isNaN (contractValue d) || isNaN (issueYear d)
           || isNaN (renewalYear d) then []
        else if issueYear d <? renewalYear d then []
        else [RenewalNotAfterIssue])%list.
Proof.
  unfold validate. rewrite safeParse_issues, parse_object_issues.
  simpl. rewrite List.app_nil_r, <- !List.app_assoc. unfold coerced. simpl.
  rewrite !orb_false_r, orb_assoc. reflexivity.
Qed.

Lemma safeParse_collects schema input k s c i :
  In (k, s) (inner schema) -> In c (checks s) ->
  isNaN (input k) = false -> run_check [k] (input k) c = Some i ->
  In i (safeParse schema input).
Proof.
  intros Hks Hc Hnan Hrun.
  rewrite safeParse_issues, parse_object_issues.
  apply in_or_app. left. apply in_flat_map. exists (k, s). split; [exact Hks|].
  simpl. unfold field_issues. rewrite Hnan.
  apply In_run_checks. eauto.
Qed.

Lemma safeParse_reports_nan schema input k s :
  In (k, s) (inner schema) -> isNaN (input k) = true ->
  In (NotANumber k) (safeParse schema input).
Proof.
  intros Hks Hnan.
  rewrite safeParse_issues, parse_object_issues.
  apply in_or_app. left. apply in_flat_map. exists (k, s). split; [exact Hks|].
  simpl. unfold field_issues. rewrite Hnan. now left.
Qed.

(** Every issue a validation reports, and when.  The issues of a field
    that holds a number come from the checks it fails, one each; a
    field that does not hold a number gets the one issue saying so; the
    cross-field issue needs three numbers. *)
Lemma In_validate m now d i :
  In i (validate m now d) <->
  (isNaN (contractValue d) = true /\ i = NotANumber "contractValue")
  \/ (isNaN (contractValue d) = false /\ (contractValue d <=? 0) = true
      /\ i = NonPositiveValue)
  \/ (isNaN (issueYear d) = true /\ i = NotANumber "issueYear")
  \/ (isNaN (issueYear d) = false /\ isInteger (issueYear d) = false
      /\ i = NotAnInteger "issueYear")
  \/ (isNaN (issueYear d) = false /\ (issueYear d <? 1900) = true
      /\ i = YearTooEarly)
  \/ (isNaN (issueYear d) = false /\ (currentYear m <? issueYear d) = true
      /\ i = YearInFuture)
  \/ (isNaN (renewalYear d) = true /\ i = NotANumber "renewalYear")
  \/ (isNaN (renewalYear d) = false /\ isInteger (renewalYear d) = false
      /\ i = NotAnInteger "renewalYear")
  \/ (isNaN (renewalYear d) = false /\ (renewalYear d <? 1900) = true
      /\ i = {| code := too_small; path := ["renewalYear"];
                message := "Year must be 1900 or later." |})
  \/ (isNaN (contractValue d) = false /\ isNaN (issueYear d) = false
      /\ isNaN (renewalYear d) = false
      /\ (issueYear d <? renewalYear d) = false
      /\ i = RenewalNotAfterIssue).
Proof.
  rewrite validate_issues, !in_app_iff. unfold field_issues.
  assert (forall (b : bool) (l : list ZodIssue),
             In i (if b then [] else l) <-> b = false /\ In i l) as Hif
      by (intros [] l; simpl; split; try tauto; intros [H _];
          discriminate H).
  assert (forall (b : bool) (k : string) (l : list ZodIssue),
             In i (if b then [NotANumber k] else l)
             <-> (b = true /\ i = NotANumber k) \/ (b = false /\ In i l))
    as Hnan.
  { intros [] k l; simpl; split.
    - intros [<-|[]]. now left.
    - intros [[_ ->]|[H _]]; [now left | discriminate H].
    - intros H. now right.
    - intros [[H _]|[_ H]]; [discriminate H | exact H]. }
  rewrite !Hnan, !Hif, !orb_false_iff. cbn [checks coerce_number positive
    int min max add_check app run_checks run_check].
  assert (forall (x : option ZodIssue) (l : list ZodIssue),
             In i (match x with Some j => j :: l | None => l end)
             <-> x = Some i \/ In i l) as Hcons.
  { intros [j|] l; simpl; split.
    - intros [<-|H]; auto.
    - intros [E|H]; [injection E; auto | auto].
    - auto.
    - intros [E|H]; [discriminate E | exact H]. }
  rewrite !Hcons.
  assert (forall (b : bool) (j : ZodIssue),
             (if b then None else Some j) = Some i <-> b = false /\ i = j)
    as Hnone.
  { intros [] j; split; try discriminate; try (intros [H _]; discriminate H).
    - intros E; injection E as <-. now split.
    - intros [_ ->]. reflexivity. }
  assert (forall (b : bool) (j : ZodIssue),
             (if b then Some j else None) = Some i <-> b = true /\ i = j)
    as Hsome.
  { intros [] j; split; try discriminate; try (intros [H _]; discriminate H).
    - intros E; injection E as <-. now split.
    - intros [_ ->]. reflexivity. }
  rewrite !Hnone, !Hsome. cbn [In].
  assert (RenewalNotAfterIssue = i <-> i = RenewalNotAfterIssue) as Hsym
      by (split; intros H; now symmetry).
  unfold NonPositiveValue, NotAnInteger, YearTooEarly, YearInFuture,
    RenewalNotAfterIssue in *.
  tauto.
Qed.

Ltac issue_cases H :=
  repeat match type of H with
         | _ \/ _ => destruct H as [H|H]
         end;
  repeat match type of H with
         | _ /\ _ =>
             let H' := fresh "H" in destruct H as [H' H]
         end;
  try discriminate H.

(** ** The Validator *)

(** C6 (amended).  When the three fields coerce to numbers and
    [renewalYear <= issueYear], validation reports RenewalNotAfterIssue
    on the path [renewalYear], whatever else the fields hold.  For
    every form, in the same pass, every violated check of every field
    that holds a number is reported, and every field that does not hold
    a number is reported as such; when some field does not hold a
    number, the cross-field rule is not evaluated and
    RenewalNotAfterIssue is not reported. *)
Theorem formSchema_reports_renewal_not_after_issue :
  forall (m : Loaded) (now : Clock) (d : FormValues),
    (isNaN (contractValue d) = false ->
     (renewalYear d <=? issueYear d) = true ->
     In RenewalNotAfterIssue (validate m now d)
     /\ path RenewalNotAfterIssue = ["renewalYear"])
    /\ (forall k s c i,
          In (k, s) (inner (formSchema (currentYear m))) ->
          In c (checks s) ->
          isNaN (coerced d k) = false ->
          run_check [k] (coerced d k) c = Some i ->
          In i (validate m now d))
    /\ (forall k s,
          In (k, s) (inner (formSchema (currentYear m))) ->
          isNaN (coerced d k) = true ->
          In (NotANumber k) (validate m now d))
    /\ (isNaN (contractValue d) = true \/ isNaN (issueYear d) = true
        \/ isNaN (renewalYear d) = true ->
        ~ In RenewalNotAfterIssue (validate m now d)).
Proof.
  intros m now d. split; [|split; [|split]].
  - intros Hcv Hle. split; [|reflexivity].
    destruct (leb_not_nan _ _ Hle) as [Hry Hiy].
    apply leb_not_ltb in Hle.
    rewrite validate_issues, Hcv, Hry, Hiy, Hle. simpl.
    do 3 (apply in_or_app; right). now left.
  - intros k s c i. apply safeParse_collects.
  - intros k s. apply safeParse_reports_nan.
  - intros Hnan Hin. rewrite In_validate in Hin.
    issue_cases Hin. intuition congruence.
Qed.

Lemma formSchema_reports_renewal_not_after_issue_witness :
  In RenewalNotAfterIssue (validate (load 2024%Z) 2024%Z reversed_years).
Proof.
  apply (proj1 (formSchema_reports_renewal_not_after_issue (load 2024%Z)
                  2024%Z reversed_years));
    vm_compute; reflexivity.
Defined.

(** C6 as stated fails: with a contract value that is not a number
    (here the field left empty, [undefined], coerced to [NaN]) and the
    renewal year before the issue year, the only issue is the one on
    [contractValue]; the cross-field rule is not evaluated. *)
Lemma renewal_rule_skipped_when_a_field_is_not_a_number :
  (renewalYear no_contract_value <=? issueYear no_contract_value) = true
  /\ validate (load 2024%Z) 2024%Z no_contract_value
     = [NotANumber "contractValue"].
Proof. split; vm_compute; reflexivity. Qed.

(** The issue on an issue year in the future is raised exactly when
    the issue year is a number above the module's [currentYear]. *)
Lemma YearInFuture_iff m now d :
  In YearInFuture (validate m now d)
  <-> isNaN (issueYear d) = false /\ (currentYear m <? issueYear d) = true.
Proof.
  rewrite validate_issues. rewrite !in_app_iff.
  unfold field_issues, YearInFuture, RenewalNotAfterIssue, NotANumber.
  simpl.
  destruct (isNaN (contractValue d)), (isNaN (issueYear d)),
    (isNaN (renewalYear d)); simpl;
    destruct (contractValue d <=? 0), (isInteger (issueYear d)),
      (issueYear d <? 1900), (currentYear m <? issueYear d),
      (isInteger (renewalYear d)), (renewalYear d <? 1900),
      (issueYear d <? renewalYear d); simpl;
    intuition (try discriminate; try congruence).
Qed.

(** C7 (amended).  The upper bound on [issueYear] is the calendar year
    read once, when the module was loaded: a validation call gives the
    same issues whatever the clock shows when it is made, and it raises
    "Year cannot be in the future." exactly for an issue year above the
    year of loading. *)
Theorem currentYear_is_fixed_when_the_module_loads :
  forall (t now now' : Clock) (d : FormValues),
    validate (load t) now d = validate (load t) now' d
    /\ (In YearInFuture (validate (load t) now d)
        <-> isNaN (issueYear d) = false
            /\ (getFullYear t <? issueYear d) = true).
Proof.
  intros t now now' d. split; [reflexivity|].
  apply YearInFuture_iff.
Qed.

(** C7 as stated fails: the module was loaded in 2024 and the call is
    made when the clock shows 2025.  An issue year of 2025 is refused as
    being in the future, though a bound read at the time of the call
    would accept it. *)
Lemma bound_is_not_read_at_validation_time :
  validate (load 2024%Z) 2025%Z issued_next_year = [YearInFuture]
  /\ safeParse (formSchema (getFullYear 2025%Z)) (coerced issued_next_year)
     = [].
Proof. split; vm_compute; reflexivity. Qed.

(** ** The Calculator *)

(** C5.  When [renewalYear - issueYear <= 0], [onSubmit] stores no
    result (the result cell keeps what it held) and sets the error the
    specification calls InvalidDuration on the renewal year. *)
Theorem onSubmit_invalid_duration :
  forall (d : FormValues) (st : State),
    (renewalYear d - issueYear d <=? 0) = true ->
    result (onSubmit d st) = result st
    /\ In ("renewalYear", InvalidDuration) (errors (onSubmit d st)).
Proof.
  intros d st H. unfold onSubmit. rewrite H. simpl. split; [reflexivity|].
  now left.
Qed.

Lemma onSubmit_invalid_duration_witness :
  result (onSubmit reversed_years initial) = None
  /\ In ("renewalYear", InvalidDuration)
        (errors (onSubmit reversed_years initial)).
Proof.
  apply (onSubmit_invalid_duration reversed_years initial).
  vm_compute. reflexivity.
Defined.

(** ** The Wordifier *)

(** C10.  On the absent result [null], [resultInWords] returns the
    empty string, whatever [toWords] does. *)
Theorem resultInWords_null :
  forall toWords : float -> completion string,
    resultInWords toWords None = Returns "".
Proof. intros toWords. reflexivity. Qed.

(** C2 (amended).  For scenario 2 the result is 1103.3, the decimal
    display is "1,103.300", and the words are "One Thousand, One Hundred
    Three Point Three Zero Zero": [toWords] ends the thousands group
    with a comma, and the comma stays in the title-cased sentence. *)
Theorem scenario2_displays :
  forall st : State,
    result (onSubmit scenario2 st) = Some 1103.3
    /\ decimalDisplay 1103.3 = "1,103.300"
    /\ resultInWords NumberToWords.toWords (Some 1103.3)
       = Returns "One Thousand, One Hundred Three Point Three Zero Zero".
Proof. intros st. repeat split; vm_compute; reflexivity. Qed.

(** C2 as stated fails on the words: the sentence the code builds is
    not the one without the comma. *)
Lemma scenario2_words_have_a_comma :
  exists w : string,
    resultInWords NumberToWords.toWords (result (onSubmit scenario2 initial))
    = Returns w
    /\ w <> "One Thousand One Hundred Three Point Three Zero Zero".
Proof.
  exists "One Thousand, One Hundred Three Point Three Zero Zero".
  split; [vm_compute; reflexivity | discriminate].
Qed.


(** ** Strings *)

Lemma is_digit_cases c :
  is_digit c = true ->
  In c ["0"; "1"; "2"; "3"; "4"; "5"; "6"; "7"; "8"; "9"]%char.
Proof.
  destruct c as [[] [] [] [] [] [] [] []]; vm_compute; intros H;
    try discriminate H; tauto.
Qed.

Lemma all_chars_impl (p q : ascii -> bool) s :
  (forall c, p c = true -> q c = true) ->
  all_chars p s = true -> all_chars q s = true.
Proof.
  intros Hpq. induction s as [|c s IH]; simpl; [reflexivity|].
  rewrite !andb_true_iff. intros [Hc Hs]. auto.
Qed.

Lemma all_chars_app p a b :
  all_chars p (a ++ b) = all_chars p a && all_chars p b.
Proof.
  induction a as [|c a IH]; simpl; [reflexivity|].
  now rewrite IH, andb_assoc.
Qed.

Lemma digit_differs sep c :
  is_digit sep = false -> is_digit c = true -> differs sep c = true.
Proof.
  intros Hsep Hc. unfold differs.
  destruct (Ascii.eqb_spec c sep) as [->|]; [congruence | reflexivity].
Qed.

Lemma digits_differ sep s :
  is_digit sep = false ->
  all_chars is_digit s = true -> all_chars (differs sep) s = true.
Proof.
  intros Hsep. apply all_chars_impl. intros c. now apply digit_differs.
Qed.

Lemma split_whole sep s :
  all_chars (differs sep) s = true -> split sep s = [s].
Proof.
  induction s as [|c s IH]; simpl; [reflexivity|].
  unfold differs at 1. rewrite andb_true_iff, negb_true_iff.
  intros [-> Hs]. now rewrite IH.
Qed.

Lemma split_app sep a b :
  all_chars (differs sep) a = true ->
  split sep (a ++ String sep b) = a :: split sep b.
Proof.
  induction a as [|c a IH]; simpl.
  - now rewrite Ascii.eqb_refl.
  - unfold differs at 1. rewrite andb_true_iff, negb_true_iff.
    intros [-> Ha]. now rewrite IH.
Qed.

Lemma split_not_nil sep s : split sep s <> [].
Proof.
  destruct s as [|c s]; simpl; [discriminate|].
  destruct (Ascii.eqb c sep); [discriminate|].
  destruct (split sep s); discriminate.
Qed.

Lemma split_pieces sep s :
  Forall (fun w => all_chars (differs sep) w = true) (split sep s).
Proof.
  induction s as [|c s IH]; simpl.
  - now constructor.
  - destruct (Ascii.eqb c sep) eqn:E.
    + now constructor.
    + assert (differs sep c = true) as Hc by (unfold differs; now rewrite E).
      destruct (split sep s) as [|w ws].
      * constructor; [simpl; now rewrite Hc | constructor].
      * inversion IH as [|? ? Hw Hws]; subst.
        constructor; [simpl; now rewrite Hc, Hw | assumption].
Qed.

Lemma split_join sep l :
  l <> [] ->
  Forall (fun w => all_chars (differs sep) w = true) l ->
  split sep (join (String sep "") l) = l.
Proof.
  induction l as [|w l IH]; [congruence|]. intros _ Hl.
  inversion Hl as [|? ? Hw Hl']; subst.
  destruct l as [|w' l].
  - simpl. now apply split_whole.
  - change (join (String sep "") (w :: w' :: l))
      with (w ++ String sep (join (String sep "") (w' :: l))).
    rewrite split_app by assumption.
    now rewrite IH.
Qed.

Lemma mapM_map {A B C} (f : B -> completion C) (g : A -> B) l :
  mapM f (map g l) = mapM (fun a => f (g a)) l.
Proof.
  induction l as [|a l IH]; simpl; [reflexivity|]. now rewrite IH.
Qed.

(** ** Decimal digits *)

Lemma string_of_uint_digits d :
  all_chars is_digit (NilEmpty.string_of_uint d) = true.
Proof. induction d; simpl; auto. Qed.

Lemma decimal_digits n : all_chars is_digit (decimal n) = true.
Proof.
  unfold decimal, NilZero.string_of_uint.
  destruct (N.to_uint n) eqn:E; try reflexivity;
    rewrite <- E; apply string_of_uint_digits.
Qed.

Lemma to_uint_not_nil n : N.to_uint n <> Decimal.Nil.
Proof.
  destruct n; simpl; [discriminate|].
  apply DecimalPos.Unsigned.to_uint_nonnil.
Qed.

Lemma digits_value_decimal n : digits_value (decimal n) = Some n.
Proof.
  unfold digits_value, decimal.
  rewrite NilZero.usu by apply to_uint_not_nil.
  simpl. now rewrite DecimalN.Unsigned.of_to.
Qed.

Lemma split_exponent_digits s :
  all_chars is_digit s = true -> split_exponent s = (s, None).
Proof.
  induction s as [|c s IH]; simpl; [reflexivity|].
  rewrite andb_true_iff. intros [Hc Hs]. rewrite (IH Hs).
  apply is_digit_cases in Hc. simpl in Hc.
  repeat (destruct Hc as [<- | Hc]; [reflexivity|]). contradiction.
Qed.

Lemma unsigned_literal_decimal n : unsigned_literal (decimal n) = of_N n.
Proof.
  unfold unsigned_literal.
  pose proof (decimal_digits n) as Hd.
  pose proof (digits_value_decimal n) as Hv.
  rewrite (split_exponent_digits _ Hd), Hv.
  destruct (decimal n) as [|c s]; [discriminate Hv|].
  simpl in Hd. apply andb_true_iff in Hd. destruct Hd as [Hc _].
  apply is_digit_cases in Hc. simpl in Hc.
  repeat (destruct Hc as [<- | Hc]; [reflexivity|]). contradiction.
Qed.

Lemma Number_decimal n : Number (decimal n) = of_N n.
Proof.
  rewrite <- unsigned_literal_decimal.
  pose proof (decimal_digits n) as Hd.
  destruct (decimal n) as [|c s] eqn:E.
  - pose proof (digits_value_decimal n) as Hv. rewrite E in Hv.
    discriminate Hv.
  - simpl in Hd. apply andb_true_iff in Hd. destruct Hd as [Hc _].
    apply is_digit_cases in Hc. simpl in Hc.
    repeat (destruct Hc as [<- | Hc]; [reflexivity|]). contradiction.
Qed.

Lemma Number_minus_decimal n :
  Number ("-" ++ decimal n) = (- of_N n)%float.
Proof. simpl. now rewrite unsigned_literal_decimal. Qed.

(** ** The fractional digits *)

Lemma forallb_below (p : N -> bool) (k : nat) :
  forallb p (map N.of_nat (seq 0 k)) = true ->
  forall r, (r < N.of_nat k)%N -> p r = true.
Proof.
  intros H r Hr. rewrite forallb_forall in H. apply H.
  apply in_map_iff. exists (N.to_nat r). split; [apply N2Nat.id|].
  apply in_seq. lia.
Qed.

Lemma fraction_digits_below_1000 r :
  (r < 1000)%N -> fraction_digits 3 r = three_digits r.
Proof.
  intros Hr. apply String.eqb_eq. revert r Hr.
  apply (forallb_below
           (fun r => String.eqb (fraction_digits 3 r) (three_digits r)) 1000).
  vm_compute. reflexivity.
Qed.

Lemma digit_at_mod_1000 i n :
  (i <= 2)%N -> digit_at i (n mod 1000) = digit_at i n.
Proof.
  intros Hi. unfold digit_at.
  assert (i = 0 \/ i = 1 \/ i = 2)%N as [-> | [-> | ->]] by lia;
    change (10 ^ 0)%N with 1%N; change (10 ^ 1)%N with 10%N;
    change (10 ^ 2)%N with 100%N; zify;
    Z.to_euclidean_division_equations; lia.
Qed.

Lemma fraction_digits_three n : fraction_digits 3 n = three_digits n.
Proof.
  assert (n mod 1000 < 1000)%N as Hr by (apply N.mod_lt; discriminate).
  transitivity (fraction_digits 3 (n mod 1000)).
  - unfold fraction_digits. change (10 ^ N.of_nat 3)%N with 1000%N.
    now rewrite N.Div0.mod_mod.
  - rewrite (fraction_digits_below_1000 _ Hr). unfold three_digits.
    now rewrite !digit_at_mod_1000 by lia.
Qed.

Lemma decimal_one_digit d :
  (d < 10)%N -> exists c, decimal d = String c "" /\ is_digit c = true.
Proof.
  revert d.
  assert (forall d, (d < N.of_nat 10)%N ->
            (match decimal d with
             | String c "" => is_digit c
             | _ => false
             end) = true) as H.
  { apply forallb_below. vm_compute. reflexivity. }
  intros d Hd. specialize (H d Hd).
  destruct (decimal d) as [|c [|c' s]]; try discriminate H. eauto.
Qed.

Lemma digit_at_below_10 i n : (digit_at i n < 10)%N.
Proof. unfold digit_at. apply N.mod_lt. discriminate. Qed.

Lemma chars_three_digits n :
  chars (three_digits n)
  = map decimal [digit_at 2 n; digit_at 1 n; digit_at 0 n].
Proof.
  unfold three_digits. simpl map.
  destruct (decimal_one_digit _ (digit_at_below_10 2 n)) as (c2 & -> & _).
  destruct (decimal_one_digit _ (digit_at_below_10 1 n)) as (c1 & -> & _).
  destruct (decimal_one_digit _ (digit_at_below_10 0 n)) as (c0 & -> & _).
  reflexivity.
Qed.

Lemma three_digits_digits n : all_chars is_digit (three_digits n) = true.
Proof.
  unfold three_digits. now rewrite !all_chars_app, !decimal_digits.
Qed.

(** ** Capitals *)

Lemma upper_not_lower c : is_lower (upper c) = false.
Proof.
  destruct c as [[] [] [] [] [] [] [] []]; vm_compute; reflexivity.
Qed.

Lemma upper_differs_space c :
  differs " " c = true -> differs " " (upper c) = true.
Proof.
  destruct c as [[] [] [] [] [] [] [] []]; vm_compute; intros H;
    try discriminate H; reflexivity.
Qed.

Lemma capitalize_cons c w : capitalize (String c w) = String (upper c) w.
Proof. reflexivity. Qed.

Lemma capitalize_capitalized w : capitalized (capitalize w).
Proof.
  destruct w as [|c w]; simpl; [exact I | apply upper_not_lower].
Qed.

Lemma capitalize_without_space w :
  all_chars (differs " ") w = true ->
  all_chars (differs " ") (capitalize w) = true.
Proof.
  destruct w as [|c w]; [reflexivity|].
  rewrite capitalize_cons. simpl. rewrite !andb_true_iff.
  intros [Hc Hw]. split; [now apply upper_differs_space | assumption].
Qed.

(** The tokens of a title-cased sentence are the capitalized words. *)
Lemma split_title_case words :
  split " " (join " " (map capitalize (split " " words)))
  = map capitalize (split " " words).
Proof.
  apply split_join.
  - pose proof (split_not_nil " " words).
    destruct (split " " words); [congruence | discriminate].
  - pose proof (split_pieces " " words) as H.
    induction H; simpl; constructor; auto using capitalize_without_space.
Qed.

Lemma title_case_capitalized words :
  Forall capitalized (split " " (join " " (map capitalize (split " " words)))).
Proof.
  rewrite split_title_case.
  induction (split " " words); simpl; constructor;
    auto using capitalize_capitalized.
Qed.

(** ** [resultInWords] on fixed notation *)

Lemma mapM_ext {A B} (f g : A -> completion B) l :
  (forall a, f a = g a) -> mapM f l = mapM g l.
Proof.
  intros H. induction l as [|a l IH]; simpl; [reflexivity|].
  now rewrite H, IH.
Qed.

Lemma resultInWords_fixed toWords x s m e :
  Prim2SF x = S754_finite s m e ->
  below_pow10 21 m e = true ->
  resultInWords toWords (Some x) = worded toWords s (round_scaled 3 m e).
Proof.
  intros Hx Hb. unfold resultInWords, toFixed. rewrite Hx, Hb.
  unfold fixed_notation. change (10 ^ N.of_nat 3)%N with 1000%N.
  set (n := round_scaled 3 m e). set (q := (n / 1000)%N).
  assert (split "." ((if s then "-" else "")
                     ++ decimal q ++ "." ++ fraction_digits 3 n)
          = [(if s then "-" else "") ++ decimal q; three_digits n]) as ->.
  { rewrite fraction_digits_three.
    replace ((if s then "-" else "") ++ decimal q ++ "." ++ three_digits n)
      with (((if s then "-" else "") ++ decimal q)
            ++ String "." (three_digits n))
      by (destruct s; reflexivity).
    rewrite split_app.
    - rewrite split_whole; [reflexivity|].
      apply digits_differ; [reflexivity | apply three_digits_digits].
    - rewrite all_chars_app.
      rewrite (digits_differ "." (decimal q)) by
        (try reflexivity; apply decimal_digits).
      now destruct s. }
  cbn [hd nth_error].
  rewrite chars_three_digits, mapM_map.
  rewrite (mapM_ext _ (fun d => toWords (of_N d)))
    by (intros d; now rewrite Number_decimal).
  unfold worded. fold q.
  replace (Number ((if s then "-" else "") ++ decimal q))
    with (if s then (- of_N q)%float else of_N q)
    by (destruct s; [now rewrite Number_minus_decimal
                    | simpl; now rewrite Number_decimal]).
  reflexivity.
Qed.

Lemma resultInWords_zero toWords x s :
  Prim2SF x = S754_zero s ->
  resultInWords toWords (Some x) = worded toWords false 0.
Proof.
  intros Hx. unfold resultInWords, toFixed. rewrite Hx. reflexivity.
Qed.

Lemma resultInWords_capitalized toWords num out :
  resultInWords toWords num = Returns out ->
  Forall capitalized (split " " out).
Proof.
  destruct num as [x|]; unfold resultInWords.
  - set (parts := split "." (toFixed 3 x)). unfold bind.
    destruct (toWords (Number (hd "" parts))) as [iw|]; [|discriminate].
    destruct (nth_error parts 1) as [fp|]; [|discriminate].
    destruct (mapM _ (chars fp)) as [ws|]; [|discriminate].
    intros [= <-]. apply title_case_capitalized.
  - intros [= <-]. repeat constructor.
Qed.




Local Open Scope Z_scope.

(** ** Numbers of the program, by their values *)

Lemma isFinite_finite x : isFinite x = finite (Prim2SF x).
Proof. reflexivity. Qed.

Lemma isInteger_finite x : isInteger x = true -> isFinite x = true.
Proof. unfold isInteger, isFinite. destruct (Prim2SF x); congruence. Qed.

(** An integer is a whole number of units. *)
Lemma isInteger_val x :
  isInteger x = true -> exists z, val (Prim2SF x) = z * 2 ^ bias.
Proof.
  unfold isInteger. pose proof (Prim2SF_valid x) as V.
  destruct (Prim2SF x) as [s|s| |s m e]; try discriminate.
  - intros _. exists 0. reflexivity.
  - destruct (valid_canon _ _ _ V) as [C _].
    pose proof (canon_exponent _ _ C) as He.
    rewrite orb_true_iff, Z.leb_le, Z.eqb_eq. intros H.
    assert (exists z, scale (Z.pos m) e = z * 2 ^ bias) as [z Hz].
    { unfold scale. destruct (Z.le_gt_cases 0 e) as [Hpos|Hneg].
      - exists (Z.pos m * 2 ^ e).
        rewrite Z.pow_add_r by blia. ring.
      - destruct H as [H|H]; [lia|].
        exists (Z.pos m / 2 ^ (- e)).
        assert (0 < 2 ^ (- e)) as Hp by (apply pow2_pos; lia).
        assert (2 ^ (- e) <> 0) as Hne by lia.
        pose proof (Z.div_mod (Z.pos m) (2 ^ (- e)) Hne) as Hd.
        rewrite H, Z.add_0_r in Hd.
        assert (2 ^ bias = 2 ^ (- e) * 2 ^ (e + bias)) as ->
            by (rewrite <- Z.pow_add_r by blia; f_equal; lia).
        set (q := Z.pos m / 2 ^ (- e)) in *. clearbody q. rewrite Hd. ring. }
    cbn [val]. unfold signed, cond_Zopp. rewrite Hz.
    destruct s; [exists (- z); ring | exists z; ring].
Qed.

Lemma SFltb_val x y :
  valid_binary x = true -> valid_binary y = true ->
  finite x = true -> finite y = true ->
  SFltb x y = true -> val x < val y.
Proof.
  intros Vx Vy Fx Fy. unfold SFltb.
  destruct x as [sx|sx| |sx mx ex], y as [sy|sy| |sy my ey];
    try discriminate; cbn [val]; intros Hlt.
  - destruct (valid_canon _ _ _ Vy) as [C _].
    pose proof (canon_exponent _ _ C).
    pose proof (scale_pos (Z.pos my) ey ltac:(blia) ltac:(lia)).
    unfold signed, cond_Zopp. destruct sy; [discriminate Hlt | lia].
  - destruct (valid_canon _ _ _ Vx) as [C _].
    pose proof (canon_exponent _ _ C).
    pose proof (scale_pos (Z.pos mx) ex ltac:(blia) ltac:(lia)).
    unfold signed, cond_Zopp. destruct sx; [lia | discriminate Hlt].
  - destruct (valid_canon _ _ _ Vx) as [Cx _].
    destruct (valid_canon _ _ _ Vy) as [Cy _].
    rewrite SFcompare_signed in Hlt by assumption.
    destruct (Z.compare_spec (signed sx mx ex) (signed sy my ey));
      try discriminate Hlt. lia.
Qed.

Lemma canon_one : canon 4503599627370496 (-52).
Proof. split; [lia | reflexivity]. Qed.

Lemma scale_one : scale 4503599627370496 (-52) = 2 ^ bias.
Proof.
  change 4503599627370496 with (1 * 2 ^ 52).
  rewrite scale_shift by blia. unfold scale. simpl Z.add. lia.
Qed.

(** The difference of two integers, the second the larger, is at
    least one. *)
Lemma integer_difference_at_least_one x y :
  isInteger x = true -> isInteger y = true -> (x <? y)%float = true ->
  at_least (Prim2SF (y - x)) 4503599627370496 (-52).
Proof.
  intros Ix Iy Hlt. rewrite sub_spec.
  pose proof (isInteger_finite _ Ix) as Fx.
  pose proof (isInteger_finite _ Iy) as Fy.
  rewrite isFinite_finite in Fx, Fy.
  apply SFsub_at_least; try apply Prim2SF_valid; try assumption.
  - apply canon_one.
  - rewrite scale_one.
    destruct (isInteger_val _ Ix) as [zx Hx].
    destruct (isInteger_val _ Iy) as [zy Hy].
    rewrite ltb_spec in Hlt.
    apply SFltb_val in Hlt; try apply Prim2SF_valid; try assumption.
    rewrite Hx, Hy in *. pose proof pow2_bias_pos as HP.
    set (P := 2 ^ bias) in *. clearbody P.
    assert (zx < zy) as Hz by nia. nia.
Qed.

Lemma at_least_positive x mL eL :
  at_least x mL eL -> SFleb x (S754_zero false) = false.
Proof. intros [->|(m & e & -> & _)]; reflexivity. Qed.

Lemma at_most_finite_nonnegative x mB eB :
  at_most x mB eB ->
  finite x = true /\ SFleb (S754_zero false) x = true.
Proof. intros [->|(m & e & -> & _)]; split; reflexivity. Qed.

Local Open Scope float_scope.

Lemma positive_duration_passes_the_guard (d : FormValues) :
  isInteger (issueYear d) = true -> isInteger (renewalYear d) = true ->
  (issueYear d <? renewalYear d) = true ->
  (renewalYear d - issueYear d <=? 0) = false.
Proof.
  intros Ii Ir Hlt. rewrite leb_spec.
  change (Prim2SF 0) with (S754_zero false).
  eapply at_least_positive.
  now apply integer_difference_at_least_one.
Qed.

(** ** The Calculator, on validated input *)

(** C1.  For validated input (a positive contract value, integer years,
    the renewal year after the issue year) [onSubmit] stores exactly the
    value of the specification's four-step formula. *)
Theorem onSubmit_calculates :
  forall (d : FormValues) (st : State),
    (0 <? contractValue d) = true ->
    isInteger (issueYear d) = true ->
    isInteger (renewalYear d) = true ->
    (issueYear d <? renewalYear d) = true ->
    result (onSubmit d st)
    = Some (calculate (contractValue d) (issueYear d) (renewalYear d)).
Proof.
  intros d st _ Ii Ir Hlt. unfold onSubmit.
  rewrite (positive_duration_passes_the_guard d Ii Ir Hlt).
  reflexivity.
Qed.

Lemma onSubmit_calculates_witness :
  result (onSubmit scenario2 initial)
  = Some (calculate 12000 2021 2022).
Proof.
  apply (onSubmit_calculates scenario2 initial); vm_compute; reflexivity.
Defined.

Local Open Scope Z_scope.

Lemma scale_mono_exponent m e e' :
  0 <= m -> - bias <= e -> e <= e' -> scale m e <= scale m e'.
Proof.
  intros Hm He Hle. unfold scale.
  apply Z.mul_le_mono_nonneg_l; [assumption|].
  apply Z.pow_le_mono_r; blia.
Qed.

Ltac closed_le := apply Z.leb_le; vm_compute; reflexivity.
Ltac closed_canon := split; [reflexivity | reflexivity].

(** A positive finite number is at most the largest one of the
    format, [(2^53 - 1) * 2^971]. *)
Lemma positive_at_most_max x :
  isFinite x = true -> (0 <? x)%float = true ->
  at_most (Prim2SF x) 9007199254740991 971.
Proof.
  intros Fx Hpos. rewrite ltb_spec in Hpos.
  change (Prim2SF 0) with (S754_zero false) in Hpos.
  pose proof (Prim2SF_valid x) as V. unfold isFinite in Fx.
  destruct (Prim2SF x) as [s|s| |s m e]; try discriminate.
  destruct s; [discriminate Hpos|].
  destruct (valid_canon _ _ _ V) as [C He].
  pose proof (canon_exponent _ _ C) as He'.
  pose proof (canon_digits _ _ C) as Hd.
  pose proof (Zdigits2_bounds (Z.pos m) ltac:(lia)) as [_ Hm].
  assert (Z.pos m < 2 ^ 53) as Hm'.
  { eapply Z.lt_le_trans; [exact Hm|]. apply Z.pow_le_mono_r; lia. }
  right. exists m, e. split; [reflexivity|].
  apply Z.le_trans with (scale 9007199254740991 e).
  - apply scale_le; [blia|]. change (2 ^ 53) with 9007199254740992 in Hm'.
    lia.
  - apply scale_mono_exponent; blia.
Qed.

Lemma at_least_itself s m e x :
  x = S754_finite s m e -> s = false -> at_least x (Z.pos m) e.
Proof. intros -> ->. right. exists m, e. split; [reflexivity | lia]. Qed.

(** The value of the formula, bounded step by step: the duration is at
    least 1, the months at least 12, [v1] at most [11 * 2^1017], [v2]
    at most [114 * 2^1017], [v2 / 100] at most [2^1018] and the result
    at most [13 * 2^1017], all of which the format holds. *)
Lemma calculate_at_most cv iy ry :
  isFinite cv = true -> (0 <? cv)%float = true ->
  isInteger iy = true -> isInteger ry = true -> (iy <? ry)%float = true ->
  at_most (Prim2SF (calculate cv iy ry)) 7318349394477056 968.
Proof.
  intros Fcv Hcv Ii Ir Hlt. unfold calculate.
  pose proof (integer_difference_at_least_one iy ry Ii Ir Hlt) as Hyd.
  set (yd := (ry - iy)%float) in *.
  assert (at_least (Prim2SF (yd * 12)%float) 6755399441055744 (-49))
    as Hmonths.
  { rewrite mul_spec.
    apply SFmul_at_least
      with (m1 := 4503599627370496) (e1 := -52)
           (m2 := 6755399441055744) (e2 := -49);
      try apply Prim2SF_valid; try assumption;
      try closed_le; try closed_canon.
    now apply (at_least_itself false 6755399441055744 (-49)). }
  set (months := (yd * 12)%float) in *.
  assert (at_most (Prim2SF (cv / months)%float) 6192449487634432 968)
    as Hv1.
  { rewrite div_spec.
    apply SFdiv_at_most
      with (m1 := 9007199254740991) (e1 := 971)
           (m2 := 6755399441055744) (e2 := -49);
      try apply Prim2SF_valid; try assumption;
      try closed_le; try closed_canon; try reflexivity.
    now apply positive_at_most_max. }
  set (v1 := (cv / months)%float) in *.
  assert (at_most (Prim2SF (v1 * 10.33)%float) 8022036836253696 971)
    as Hv2.
  { rewrite mul_spec.
    apply SFmul_at_most
      with (m1 := 6192449487634432) (e1 := 968)
           (m2 := 5815273018842153) (e2 := -49);
      try apply Prim2SF_valid; try assumption;
      try closed_le; try closed_canon.
    right. exists 5815273018842153%positive, (-49).
    split; [reflexivity | lia]. }
  set (v2 := (v1 * 10.33)%float) in *.
  assert (at_most (Prim2SF (v2 / 100)%float) 4503599627370496 966)
    as Hv3.
  { rewrite div_spec.
    apply SFdiv_at_most
      with (m1 := 8022036836253696) (e1 := 971)
           (m2 := 7036874417766400) (e2 := -46);
      try apply Prim2SF_valid; try assumption;
      try closed_le; try closed_canon; try reflexivity.
    now apply (at_least_itself false 7036874417766400 (-46)). }
  rewrite add_spec.
  apply SFadd_at_most
    with (m1 := 4503599627370496) (e1 := 966)
         (m2 := 6192449487634432) (e2 := 968);
    try apply Prim2SF_valid; try assumption;
    try closed_le; try closed_canon.
Qed.

Local Open Scope float_scope.

(** C9.  For validated input with a finite contract value, the number
    [onSubmit] stores is finite and not negative. *)
Theorem onSubmit_result_is_finite_and_nonnegative :
  forall (d : FormValues) (st : State),
    isFinite (contractValue d) = true ->
    (0 <? contractValue d) = true ->
    isInteger (issueYear d) = true ->
    isInteger (renewalYear d) = true ->
    (issueYear d <? renewalYear d) = true ->
    exists r : float,
      result (onSubmit d st) = Some r
      /\ isFinite r = true /\ (0 <=? r) = true.
Proof.
  intros d st Fcv Hcv Ii Ir Hlt.
  exists (calculate (contractValue d) (issueYear d) (renewalYear d)).
  split.
  - unfold onSubmit.
    rewrite (positive_duration_passes_the_guard d Ii Ir Hlt). reflexivity.
  - pose proof (calculate_at_most _ _ _ Fcv Hcv Ii Ir Hlt) as H.
    apply at_most_finite_nonnegative in H.
    rewrite isFinite_finite, leb_spec. exact H.
Qed.

Lemma onSubmit_result_is_finite_and_nonnegative_witness :
  exists r : float,
    result (onSubmit scenario2 initial) = Some r
    /\ isFinite r = true /\ (0 <=? r) = true.
Proof.
  apply (onSubmit_result_is_finite_and_nonnegative scenario2 initial);
    vm_compute; reflexivity.
Defined.

Local Open Scope Z_scope.

(** ** Integers in the format *)

Lemma Zdigits2_shift m k :
  0 < m -> 0 <= k -> Zdigits2 (m * 2 ^ k) = Zdigits2 m + k.
Proof.
  intros Hm Hk. pose proof (pow2_pos k Hk).
  rewrite !Zdigits2_log2 by nia.
  rewrite Z.log2_mul_pow2 by lia. lia.
Qed.

Lemma Zdigits2_div m k :
  0 <= k -> 0 < m / 2 ^ k -> Zdigits2 (m / 2 ^ k) = Zdigits2 m - k.
Proof.
  intros Hk Hq. pose proof (pow2_pos k Hk) as Hp.
  assert (0 < m) as Hm.
  { destruct (Z.le_gt_cases m 0) as [H|H]; [|exact H].
    pose proof (Z.div_le_upper_bound m (2 ^ k) 0 Hp ltac:(lia)). lia. }
  assert (2 ^ k <= m) as Hle.
  { pose proof (Z.mul_div_le m (2 ^ k) Hp). nia. }
  apply Z.log2_le_pow2 in Hle; [|assumption].
  rewrite !Zdigits2_log2 by assumption.
  rewrite <- Z.shiftr_div_pow2 by assumption.
  rewrite Z.log2_shiftr by assumption. lia.
Qed.

Lemma Zdigits2_mono a b : 0 < a -> a <= b -> Zdigits2 a <= Zdigits2 b.
Proof.
  intros Ha Hab. rewrite !Zdigits2_log2 by lia.
  pose proof (Z.log2_le_mono a b Hab). lia.
Qed.

(** Rounding gives a number of the format. *)
Lemma binary_round_aux_valid s mx ex lx :
  0 < mx -> - bias <= ex ->
  ex <= SpecFloat.fexp prec emax (Zdigits2 mx + ex) ->
  valid_binary (binary_round_aux prec emax s mx ex lx) = true.
Proof.
  intros Hm He Hal. unfold binary_round_aux.
  destruct (shr_fexp prec emax mx ex lx) as [mrs1 e1] eqn:E1.
  unfold shr_fexp in E1.
  destruct (shr_record_of_loc_spec mx lx) as [Hrm Hri].
  apply shr_spec in E1; [|rewrite Hrm; lia].
  rewrite Hrm, Hri in E1. destruct E1 as (He1 & H1 & Hm1 & _).
  set (dx := Zdigits2 mx) in *.
  replace (Z.max (SpecFloat.fexp prec emax (dx + ex) - ex) 0)
    with (SpecFloat.fexp prec emax (dx + ex) - ex) in * by lia.
  set (k1 := SpecFloat.fexp prec emax (dx + ex) - ex) in *.
  assert (e1 = SpecFloat.fexp prec emax (dx + ex)) as He1' by lia.
  pose proof (round_nearest_even_bounds mrs1) as [Hr1 Hr2].
  set (m2 := round_nearest_even (shr_m mrs1) (loc_of_shr_record mrs1)) in *.
  assert (m2 <= shr_m mrs1 + 1) as Hr2'
      by (unfold up in Hr2; destruct (inexact mrs1); lia).
  destruct (shr_fexp prec emax m2 e1 loc_Exact) as [mrs2 e2] eqn:E2.
  unfold shr_fexp in E2.
  destruct (shr_record_of_loc_spec m2 loc_Exact) as [Hrm2 Hri2].
  apply shr_spec in E2; [|rewrite Hrm2; lia].
  rewrite Hrm2 in E2. destruct E2 as (He2 & H2 & Hm2 & _).
  destruct (shr_m mrs2) as [|p|p] eqn:E3; try reflexivity.
  destruct (e2 <=? emax - prec) eqn:Ele; [|reflexivity].
  cbn [valid_binary]. unfold bounded. rewrite Ele, andb_true_r.
  unfold canonical_mantissa. apply Z.eqb_eq.
  change (Z.pos (digits2_pos p)) with (Zdigits2 (Z.pos p)).
  set (k2 := Z.max (SpecFloat.fexp prec emax (Zdigits2 m2 + e1) - e1) 0) in *.
  assert (0 <= k2) as Hk2 by (unfold k2; lia).
  assert (0 < m2) as Hm2pos.
  { destruct (Z.le_gt_cases m2 0) as [H|H]; [|exact H].
    assert (m2 = 0) as H0 by lia. rewrite H0 in Hm2.
    rewrite Z.div_0_l in Hm2 by (pose proof (pow2_pos k2); lia). lia. }
  rewrite Hm2, Zdigits2_div by lia.
  replace (Zdigits2 m2 - k2 + e2) with (Zdigits2 m2 + e1) by lia.
  assert (e1 <= SpecFloat.fexp prec emax (Zdigits2 m2 + e1)) as Hge.
  { destruct (Z.le_gt_cases (shr_m mrs1) 0) as [Hz|Hp].
    - assert (m2 = 1) as -> by lia.
      assert (shr_m mrs1 = 0) as Hz' by lia. rewrite Hz' in Hm1.
      assert (0 <= k1) as Hk1 by (unfold k1; lia).
      assert (mx < 2 ^ k1) as Hlt.
      { pose proof (pow2_pos k1 Hk1) as Hp.
        pose proof (Z.div_mod mx (2 ^ k1) ltac:(lia)) as Hd.
        pose proof (Z.mod_pos_bound mx (2 ^ k1) Hp). nia. }
      pose proof (Zdigits2_bounds mx Hm) as [Hlo _]. fold dx in Hlo.
      assert (dx - 1 < k1) as Hdk.
      { apply (Z.pow_lt_mono_r_iff 2); lia. }
      change (Zdigits2 1) with 1. rewrite He1'. unfold k1 in Hdk.
      rewrite !fexp_eq in *. lia.
    - rewrite He1' at 1. apply fexp_mono.
      assert (Zdigits2 (shr_m mrs1) = dx - k1) as Hd1.
      { rewrite Hm1. apply Zdigits2_div; [unfold k1; lia | lia]. }
      pose proof (Zdigits2_mono (shr_m mrs1) m2 Hp Hr1). lia. }
  unfold k2 in *. lia.
Qed.

Lemma binary_round_valid s m e :
  - bias <= e -> valid_binary (binary_round prec emax s m e) = true.
Proof.
  intros He. unfold binary_round.
  set (e' := SpecFloat.fexp prec emax (Z.pos (digits2_pos m) + e)).
  assert (- bias <= e') as He' by (unfold e'; rewrite fexp_eq; blia).
  destruct (shl_align_spec m e e' He') as [Hs Hv].
  destruct (shl_align m e e') as [mz ez]. cbn [fst snd] in Hs, Hv. subst ez.
  assert (Zdigits2 (Z.pos mz) + Z.min e e' = Zdigits2 (Z.pos m) + e) as Hd.
  { apply Z.le_antisymm; apply magnitude_le; try lia; blia. }
  apply binary_round_aux_valid; try lia.
  rewrite Hd. unfold e'. cbn [Zdigits2]. lia.
Qed.

Lemma binary_normalize_valid M e szero :
  - bias <= e -> valid_binary (binary_normalize prec emax M e szero) = true.
Proof.
  intros He. destruct M; [reflexivity | |]; now apply binary_round_valid.
Qed.

Lemma Prim2SF_of_Z z :
  Prim2SF (of_Z z) = binary_normalize prec emax z 0 false.
Proof.
  unfold of_Z. apply Prim2SF_SF2Prim, binary_normalize_valid. blia.
Qed.

Local Open Scope Z_scope.

Lemma at_most_at_least x m e :
  at_most x m e -> at_least x m e ->
  exists m' e', x = S754_finite false m' e'
                /\ scale (Z.pos m') e' = scale m e.
Proof.
  intros [->|(m1 & e1 & -> & H1)] [H|(m2 & e2 & H & H2)];
    try discriminate H.
  injection H as <- <-. exists m1, e1. split; [reflexivity | lia].
Qed.

(** A positive integer below [2^53] is a number of the format. *)
Lemma canonical_form t :
  0 < t < 2 ^ 53 ->
  exists mB eB, canon mB eB /\ eB <= 971 /\ scale mB eB = scale t 0.
Proof.
  intros [Ht Ht'].
  pose proof (Zdigits2_bounds t Ht) as [Hlo _].
  pose proof (Zdigits2_pos t Ht) as Hd.
  assert (Zdigits2 t <= 53) as Hd'.
  { assert (2 ^ (Zdigits2 t - 1) < 2 ^ 53) as H by lia.
    apply Z.pow_lt_mono_r_iff in H; lia. }
  exists (t * 2 ^ (53 - Zdigits2 t)), (Zdigits2 t - 53).
  repeat split.
  - pose proof (pow2_pos (53 - Zdigits2 t) ltac:(lia)). nia.
  - rewrite Zdigits2_shift by lia. rewrite fexp_eq. lia.
  - lia.
  - rewrite scale_shift by blia. f_equal. lia.
Qed.

Lemma scale_0 t : scale t 0 = t * 2 ^ bias.
Proof. reflexivity. Qed.

Lemma of_Z_holds t : 0 < t < 2 ^ 53 -> holds_integer (of_Z t) t.
Proof.
  intros Ht. destruct (canonical_form t Ht) as (mB & eB & HB & HeB & Hs).
  unfold holds_integer. rewrite Prim2SF_of_Z, <- scale_0, <- Hs.
  apply at_most_at_least.
  - apply binary_normalize_at_most; try assumption; try blia; lia.
  - apply binary_normalize_at_least; try assumption; try blia; lia.
Qed.

Lemma add_holds x y a b :
  holds_integer x a -> holds_integer y b ->
  0 < a -> 0 < b -> a + b < 2 ^ 53 ->
  holds_integer (x + y)%float (a + b).
Proof.
  intros (mx & ex & Hx & Hvx) (my & ey & Hy & Hvy) Ha Hb Hab.
  destruct (canonical_form (a + b) ltac:(lia)) as (mB & eB & HB & HeB & Hs).
  unfold holds_integer. rewrite add_spec, <- scale_0, <- Hs.
  pose proof pow2_bias_pos as HP.
  apply at_most_at_least.
  - apply SFadd_at_most
      with (m1 := Z.pos mx) (e1 := ex) (m2 := Z.pos my) (e2 := ey);
      try apply Prim2SF_valid; try assumption.
    + rewrite Hx. right. exists mx, ex. split; [reflexivity | lia].
    + rewrite Hy. right. exists my, ey. split; [reflexivity | lia].
    + rewrite Hvx. nia.
    + rewrite Hvy. nia.
    + rewrite Hs, scale_0, Hvx, Hvy. lia.
  - apply SFadd_at_least
      with (m1 := Z.pos mx) (e1 := ex) (m2 := Z.pos my) (e2 := ey);
      try apply Prim2SF_valid; try assumption.
    + rewrite Hx. right. exists mx, ex. split; [reflexivity | lia].
    + rewrite Hy. right. exists my, ey. split; [reflexivity | lia].
    + rewrite Hs, scale_0, Hvx, Hvy. lia.
Qed.

Lemma holds_compare x y a b :
  holds_integer x a -> holds_integer y b ->
  (x <? y)%float = (a <? b).
Proof.
  intros (mx & ex & Hx & Hvx) (my & ey & Hy & Hvy).
  pose proof (Prim2SF_valid x) as Vx. pose proof (Prim2SF_valid y) as Vy.
  rewrite ltb_spec. rewrite Hx, Hy in *.
  destruct (valid_canon _ _ _ Vx) as [Cx _].
  destruct (valid_canon _ _ _ Vy) as [Cy _].
  unfold SFltb. rewrite SFcompare_signed by assumption.
  unfold signed, cond_Zopp. rewrite Hvx, Hvy.
  pose proof pow2_bias_pos as HP. unfold Z.ltb.
  replace (a * 2 ^ bias ?= b * 2 ^ bias) with (a ?= b); [reflexivity|].
  symmetry. destruct (Z.compare_spec a b) as [->|H|H].
  - apply Z.compare_refl.
  - apply Z.compare_lt_iff. nia.
  - apply Z.compare_gt_iff. nia.
Qed.

Lemma holds_isInteger x a : holds_integer x a -> isInteger x = true.
Proof.
  intros (m & e & Hx & Hv). pose proof (Prim2SF_valid x) as V.
  unfold isInteger. rewrite Hx in *.
  destruct (valid_canon _ _ _ V) as [C _].
  pose proof (canon_exponent _ _ C) as He.
  destruct (Z.leb_spec 0 e) as [Hpos|Hneg]; [reflexivity|].
  cbn [orb]. apply Z.eqb_eq.
  assert (Z.pos m = a * 2 ^ (- e)) as ->.
  { unfold scale in Hv.
    assert (2 ^ bias = 2 ^ (- e) * 2 ^ (e + bias)) as Hb
        by (rewrite <- Z.pow_add_r by blia; f_equal; lia).
    rewrite Hb in Hv. pose proof (pow2_pos (e + bias) ltac:(blia)).
    nia. }
  apply Z.mod_mul. pose proof (pow2_pos (- e) ltac:(lia)). lia.
Qed.

Lemma holds_1900 : holds_integer 1900 1900.
Proof.
  exists 8356288371097600%positive, (-42). split; reflexivity.
Qed.

Lemma holds_1 : holds_integer 1 1.
Proof.
  exists 4503599627370496%positive, (-52). split; reflexivity.
Qed.

Local Open Scope float_scope.

(** ** The bounds on the issue year *)

Lemma validate_accepts m now d :
  (0 <? contractValue d) = true ->
  isInteger (issueYear d) = true ->
  (issueYear d <? 1900) = false ->
  (currentYear m <? issueYear d) = false ->
  isInteger (renewalYear d) = true ->
  (renewalYear d <? 1900) = false ->
  (issueYear d <? renewalYear d) = true ->
  validate m now d = [].
Proof.
  intros Hcv Ii Hi1 Hi2 Ir Hr Hlt.
  rewrite validate_issues. unfold field_issues.
  rewrite (proj2 (ltb_not_nan _ _ Hcv)).
  rewrite (isInteger_not_nan _ Ii), (isInteger_not_nan _ Ir).
  simpl. rewrite (ltb_not_leb _ _ Hcv), Ii, Hi1, Hi2, Ir, Hr, Hlt.
  reflexivity.
Qed.

Lemma YearTooEarly_iff m now d :
  In YearTooEarly (validate m now d)
  <-> isNaN (issueYear d) = false /\ (issueYear d <? 1900) = true.
Proof.
  rewrite validate_issues. rewrite !in_app_iff.
  unfold field_issues, YearTooEarly, RenewalNotAfterIssue, NotANumber.
  simpl.
  destruct (isNaN (contractValue d)), (isNaN (issueYear d)),
    (isNaN (renewalYear d)); simpl;
    destruct (contractValue d <=? 0), (isInteger (issueYear d)),
      (issueYear d <? 1900), (currentYear m <? issueYear d),
      (isInteger (renewalYear d)), (renewalYear d <? 1900),
      (issueYear d <? renewalYear d); simpl;
    intuition (try discriminate; try congruence).
Qed.

(** C8.  The module having been loaded in a year [t] from 1900 on, and
    the other fields being valid: an issue year of 1900 and one equal
    to [currentYear] are accepted, and an issue year of 1899 and one of
    [currentYear + 1] are refused with the issues the specification
    calls YearOutOfRange. *)
Theorem issueYear_boundaries :
  forall (t now : Clock) (cv ry : float),
    clock_year t -> (1900 <= t)%Z ->
    (0 <? cv) = true ->
    isInteger ry = true ->
    (ry <? 1900) = false ->
    ((1900 <? ry) = true ->
     validate (load t) now
       {| contractValue := cv; issueYear := 1900; renewalYear := ry |} = [])
    /\ ((getFullYear t <? ry) = true ->
        validate (load t) now
          {| contractValue := cv; issueYear := getFullYear t;
             renewalYear := ry |} = [])
    /\ (YearOutOfRange YearTooEarly
        /\ In YearTooEarly
             (validate (load t) now
                {| contractValue := cv; issueYear := 1899;
                   renewalYear := ry |}))
    /\ (YearOutOfRange YearInFuture
        /\ In YearInFuture
             (validate (load t) now
                {| contractValue := cv; issueYear := getFullYear t + 1;
                   renewalYear := ry |})).
Proof.
  intros t now cv ry [_ Hmax] Hmin Hcv Ir Hr.
  assert (0 < t < 2 ^ 53)%Z as Ht by lia.
  assert (Hcy : holds_integer (getFullYear t) t) by exact (of_Z_holds t Ht).
  assert (holds_integer (getFullYear t + 1) (t + 1)) as Hnext
      by (apply add_holds; auto using holds_1; lia).
  assert (Hge : (getFullYear t <? 1900) = false).
  { rewrite (holds_compare _ _ _ _ Hcy holds_1900). apply Z.ltb_ge. lia. }
  repeat split.
  - intros Hlt.
    apply validate_accepts;
      cbn [contractValue issueYear renewalYear currentYear load];
      try assumption; reflexivity.
  - intros Hlt.
    apply validate_accepts;
      cbn [contractValue issueYear renewalYear currentYear load];
      try assumption.
    + exact (holds_isInteger _ _ Hcy).
    + rewrite (holds_compare _ _ _ _ Hcy Hcy). apply Z.ltb_irrefl.
  - now left.
  - apply YearTooEarly_iff.
    cbn [contractValue issueYear renewalYear currentYear load].
    split; reflexivity.
  - now right.
  - apply YearInFuture_iff.
    cbn [contractValue issueYear renewalYear currentYear load]. split.
    + apply isInteger_not_nan. exact (holds_isInteger _ _ Hnext).
    + rewrite (holds_compare _ _ _ _ Hcy Hnext). apply Z.ltb_lt. lia.
Qed.

Lemma issueYear_boundaries_witness :
  validate (load 2024%Z) 2024%Z
    {| contractValue := 50000; issueYear := 2024; renewalYear := 2030 |}
  = [].
Proof.
  refine (proj1 (proj2 (issueYear_boundaries 2024%Z 2024%Z 50000 2030
                          _ _ _ _ _)) _);
    try (vm_compute; reflexivity); try (unfold clock_year; lia).
Defined.

Local Open Scope string_scope.
Local Open Scope float_scope.

(** * Further properties of the component *)

(** ** The schema, issue by issue *)

(** The order of two numbers is total. *)
Lemma ltb_negb_leb x y :
  isNaN x = false -> isNaN y = false -> (x <? y) = negb (y <=? x).
Proof.
  unfold isNaN. rewrite ltb_spec, leb_spec. unfold SFltb, SFleb.
  rewrite (SFcompare_antisym (Prim2SF x) (Prim2SF y)).
  intros Hx Hy.
  destruct (SFcompare (Prim2SF x) (Prim2SF y)) as [[]|] eqn:Hc;
    try reflexivity.
  destruct (Prim2SF x) as [| | |? ? ?], (Prim2SF y) as [| | |? ? ?];
    try discriminate; simpl in Hc;
    repeat match type of Hc with
           | context [if ?b then _ else _] => destruct b
           end; discriminate.
Qed.

Lemma not_integer_nan x : isNaN x = true -> isInteger x = false.
Proof. unfold isInteger, isNaN. destruct (Prim2SF x); congruence. Qed.

(** What an accepted form holds. *)
Lemma validate_nil_inv m now d :
  validate m now d = [] ->
  (0 <? contractValue d) = true
  /\ isInteger (issueYear d) = true
  /\ (issueYear d <? 1900) = false
  /\ (currentYear m <? issueYear d) = false
  /\ isInteger (renewalYear d) = true
  /\ (renewalYear d <? 1900) = false
  /\ (issueYear d <? renewalYear d) = true.
Proof.
  rewrite validate_issues. unfold field_issues. simpl.
  destruct (isNaN (contractValue d)) eqn:Ncv; [discriminate|].
  rewrite (ltb_negb_leb 0 (contractValue d)) by (assumption || reflexivity).
  destruct (contractValue d <=? 0); [discriminate|].
  destruct (isNaN (issueYear d)); [discriminate|].
  destruct (isInteger (issueYear d)); [|discriminate].
  destruct (issueYear d <? 1900); [discriminate|].
  destruct (currentYear m <? issueYear d); [discriminate|].
  destruct (isNaN (renewalYear d)); [discriminate|].
  destruct (isInteger (renewalYear d)); [|discriminate].
  destruct (renewalYear d <? 1900); [discriminate|].
  destruct (issueYear d <? renewalYear d); [|discriminate].
  intros _. repeat split; reflexivity.
Qed.

(** X1. The schema accepts a form exactly when the contract value is
    above zero, both years are whole numbers not below 1900, the issue
    year is not above [currentYear], and the renewal year is above the
    issue year. *)
Theorem formSchema_accepts_iff :
  forall (m : Loaded) (now : Clock) (d : FormValues),
    validate m now d = [] <->
    (0 <? contractValue d) = true
    /\ isInteger (issueYear d) = true
    /\ (issueYear d <? 1900) = false
    /\ (currentYear m <? issueYear d) = false
    /\ isInteger (renewalYear d) = true
    /\ (renewalYear d <? 1900) = false
    /\ (issueYear d <? renewalYear d) = true.
Proof.
  intros m now d. split.
  - apply validate_nil_inv.
  - intros (Hcv & Ii & Hi1 & Hi2 & Ir & Hr & Hlt).
    now apply validate_accepts.
Qed.

(** X2. "Contract value must be a positive number." is reported exactly
    when the contract value is a number not above zero, whatever the
    year fields hold. *)
Theorem NonPositiveValue_iff :
  forall (m : Loaded) (now : Clock) (d : FormValues),
    In NonPositiveValue (validate m now d)
    <-> isNaN (contractValue d) = false /\ (contractValue d <=? 0) = true.
Proof.
  intros m now d. rewrite In_validate. split.
  - intros H. issue_cases H. now split.
  - intros [H1 H2]. right; left. now repeat split.
Qed.

(** X3. The issue of the cross-field rule is reported exactly when the
    three fields are numbers and the issue year is not below the renewal
    year. *)
Theorem RenewalNotAfterIssue_iff :
  forall (m : Loaded) (now : Clock) (d : FormValues),
    In RenewalNotAfterIssue (validate m now d)
    <-> isNaN (contractValue d) = false
        /\ isNaN (issueYear d) = false
        /\ isNaN (renewalYear d) = false
        /\ (issueYear d <? renewalYear d) = false.
Proof.
  intros m now d. rewrite In_validate. split.
  - intros H. issue_cases H. now repeat split.
  - intros H. do 9 right. tauto.
Qed.

(** X4. A field is reported as not being a number exactly when it is one
    of the three fields of the form and holds [NaN]. *)
Theorem NotANumber_iff :
  forall (m : Loaded) (now : Clock) (d : FormValues) (k : string),
    In (NotANumber k) (validate m now d)
    <-> In k fields /\ isNaN (coerced d k) = true.
Proof.
  intros m now d k. rewrite In_validate. unfold fields. split.
  - intros H. issue_cases H; injection H as ->; simpl; auto 6.
  - intros [Hin Hnan]. simpl in Hin.
    destruct Hin as [<-|[<-|[<-|[]]]]; cbn in Hnan; auto 10.
Qed.

(** X5. A field that is not a number gets no other issue: every issue on
    its path is the one saying so. *)
Theorem NaN_field_has_one_issue :
  forall (m : Loaded) (now : Clock) (d : FormValues) (k : string)
         (i : ZodIssue),
    isNaN (coerced d k) = true ->
    In i (validate m now d) -> path i = [k] -> i = NotANumber k.
Proof.
  intros m now d k i Hnan H Hp. rewrite In_validate in H.
  issue_cases H; subst i; injection Hp as <-; cbn in Hnan;
    congruence.
Qed.

Lemma NaN_field_has_one_issue_witness :
  hd RenewalNotAfterIssue (validate (load 2024%Z) 2024%Z no_contract_value)
  = NotANumber "contractValue".
Proof.
  apply (NaN_field_has_one_issue (load 2024%Z) 2024%Z no_contract_value
           "contractValue");
    vm_compute; auto.
Defined.

(** X6. The messages given as [required_error] are never reported: after
    coercion a missing field is [NaN], a number, and the issue is the
    one of a value that is not a number. *)
Theorem required_error_is_never_reported :
  forall (m : Loaded) (now : Clock) (d : FormValues) (i : ZodIssue)
         (k : string) (s : ZodNumber),
    In i (validate m now d) ->
    In (k, s) (inner (formSchema (currentYear m))) ->
    String.eqb (message i) (required_error s) = false.
Proof.
  intros m now d i k s H Hks. rewrite In_validate in H.
  cbn in Hks.
  destruct Hks as [E|[E|[E|[]]]]; injection E as <- <-;
    issue_cases H; subst i; reflexivity.
Qed.

Lemma required_error_is_never_reported_witness :
  String.eqb (message (NotANumber "contractValue"))
    "Contract value is required." = false.
Proof.
  apply (required_error_is_never_reported (load 2024%Z) 2024%Z
           no_contract_value (NotANumber "contractValue") "contractValue"
           (coerce_number "Contract value is required."
            |> positive "Contract value must be a positive number."));
    vm_compute; auto.
Defined.

(** X7. When only the order of the years is wrong, the one issue is the
    one on [renewalYear]. *)
Theorem formSchema_reports_only_the_order :
  forall (m : Loaded) (now : Clock) (d : FormValues),
    (0 <? contractValue d) = true ->
    isInteger (issueYear d) = true ->
    (issueYear d <? 1900) = false ->
    (currentYear m <? issueYear d) = false ->
    isInteger (renewalYear d) = true ->
    (renewalYear d <? 1900) = false ->
    (renewalYear d <=? issueYear d) = true ->
    validate m now d = [RenewalNotAfterIssue].
Proof.
  intros m now d Hcv Ii Hi1 Hi2 Ir Hr Hle.
  rewrite validate_issues. unfold field_issues.
  rewrite (proj2 (ltb_not_nan _ _ Hcv)).
  rewrite (isInteger_not_nan _ Ii), (isInteger_not_nan _ Ir).
  simpl. rewrite (ltb_not_leb _ _ Hcv), Ii, Hi1, Hi2, Ir, Hr.
  rewrite (leb_not_ltb _ _ Hle). reflexivity.
Qed.

Lemma formSchema_reports_only_the_order_witness :
  validate (load 2024%Z) 2024%Z reversed_years = [RenewalNotAfterIssue].
Proof.
  apply (formSchema_reports_only_the_order (load 2024%Z) 2024%Z
           reversed_years); vm_compute; reflexivity.
Defined.

Local Open Scope Z_scope.

(** ** The sign of a difference *)

Lemma binary_round_aux_opp m e l :
  binary_round_aux prec emax true m e l
  = SFopp (binary_round_aux prec emax false m e l).
Proof.
  unfold binary_round_aux.
  destruct (shr_fexp prec emax m e l) as [mrs e'].
  destruct (shr_fexp prec emax _ e' loc_Exact) as [mrs' e''].
  destruct (shr_m mrs'); try reflexivity.
  destruct (e'' <=? emax - prec); reflexivity.
Qed.

Lemma binary_normalize_neg p e :
  binary_normalize prec emax (Z.neg p) e false
  = SFopp (binary_normalize prec emax (Z.pos p) e false).
Proof.
  unfold binary_normalize, binary_round.
  destruct (shl_align p e _) as [mz ez]. apply binary_round_aux_opp.
Qed.

(** Every finite number is a whole number of units of [2^-1074]. *)
Lemma val_grid x :
  valid_binary x = true -> exists k, val x = k * 2 ^ (bias - 1074).
Proof.
  intros V. destruct x as [s|s| |s m e]; try (exists 0; reflexivity).
  destruct (valid_canon _ _ _ V) as [C _].
  pose proof (canon_exponent _ _ C) as He.
  exists (cond_Zopp s (Z.pos m * 2 ^ (e + 1074))).
  cbn [val]. unfold signed, scale.
  replace (e + bias) with ((e + 1074) + (bias - 1074)) by lia.
  rewrite Z.pow_add_r by blia. destruct s; cbn [cond_Zopp]; ring.
Qed.

Lemma canon_least : canon 1 (-1074).
Proof. split; [lia | reflexivity]. Qed.

Lemma scale_least : scale 1 (-1074) = 2 ^ (bias - 1074).
Proof. unfold scale. rewrite Z.mul_1_l. reflexivity. Qed.

Lemma val_finite_nonzero s m e :
  valid_binary (S754_finite s m e) = true ->
  if s then signed s m e < 0 else 0 < signed s m e.
Proof.
  intros V. destruct (valid_canon _ _ _ V) as [C _].
  pose proof (canon_exponent _ _ C) as He.
  pose proof (scale_pos (Z.pos m) e ltac:(blia) ltac:(lia)).
  unfold signed. destruct s; cbn [cond_Zopp]; lia.
Qed.

(** On finite numbers the order is the order of the values. *)
Lemma SFleb_val x y :
  valid_binary x = true -> valid_binary y = true ->
  finite x = true -> finite y = true ->
  SFleb x y = (val x <=? val y).
Proof.
  intros Vx Vy Fx Fy. unfold SFleb.
  destruct x as [sx|sx| |sx mx ex], y as [sy|sy| |sy my ey];
    try discriminate; cbn [val].
  - reflexivity.
  - pose proof (val_finite_nonzero _ _ _ Vy) as H. cbn [SFcompare].
    symmetry. destruct sy; [apply Z.leb_gt | apply Z.leb_le]; lia.
  - pose proof (val_finite_nonzero _ _ _ Vx) as H. cbn [SFcompare].
    symmetry. destruct sx; [apply Z.leb_le | apply Z.leb_gt]; lia.
  - destruct (valid_canon _ _ _ Vx) as [Cx _].
    destruct (valid_canon _ _ _ Vy) as [Cy _].
    rewrite SFcompare_signed by assumption.
    unfold Z.leb. destruct (signed sx mx ex ?= signed sy my ey); reflexivity.
Qed.

(** A number below zero, infinite or not. *)
Lemma opp_at_least_negative x mL eL :
  at_least x mL eL -> SFleb (SFopp x) (S754_zero false) = true.
Proof. intros [->|(m & e & -> & _)]; reflexivity. Qed.

(** The difference of two finite numbers is above zero, zero or below
    zero as the difference of their values is: rounding never changes
    the sign of a difference. *)
Lemma SFsub_sign x y :
  valid_binary x = true -> valid_binary y = true ->
  finite x = true -> finite y = true ->
  SFleb (SF64sub x y) (S754_zero false) = (val x - val y <=? 0).
Proof.
  intros Vx Vy Fx Fy.
  destruct (Z.lt_trichotomy (val x - val y) 0) as [Hlt|[Heq|Hgt]].
  - (* below zero *)
    replace (val x - val y <=? 0) with true by (symmetry; apply Z.leb_le; lia).
    destruct x as [sx|sx| |sx mx ex], y as [sy|sy| |sy my ey];
      try discriminate; cbn [val] in Hlt; try lia.
    + pose proof (val_finite_nonzero _ _ _ Vy) as H.
      destruct sy; [lia | reflexivity].
    + pose proof (val_finite_nonzero _ _ _ Vx) as H.
      destruct sx; [reflexivity | lia].
    + destruct (valid_canon _ _ _ Vx) as [Cx _].
      destruct (valid_canon _ _ _ Vy) as [Cy _].
      pose proof (canon_exponent _ _ Cx). pose proof (canon_exponent _ _ Cy).
      unfold SF64sub, SFsub.
      set (ez := Z.min ex ey).
      set (M := cond_Zopp sx (Z.pos (fst (shl_align mx ex ez)))
                - cond_Zopp sy (Z.pos (fst (shl_align my ey ez)))).
      assert (scale M ez = signed sx mx ex - signed sy my ey) as HM.
      { unfold M, ez. rewrite scale_sub, !aligned_value by blia.
        reflexivity. }
      assert (M < 0) as HMneg.
      { pose proof (pow2_pos (ez + bias) ltac:(unfold ez; blia)).
        unfold scale in HM. nia. }
      destruct M as [|p|p] eqn:EM; try lia.
      rewrite binary_normalize_neg.
      apply opp_at_least_negative with (mL := 1) (eL := -1074).
      apply binary_normalize_at_least;
        [unfold ez; blia | apply canon_least |].
      rewrite scale_least.
      assert (scale (Z.pos p) ez = - scale (Z.neg p) ez) as ->
          by (unfold scale; lia).
      rewrite HM.
      destruct (val_grid _ Vx) as [kx Hx]. destruct (val_grid _ Vy) as [ky Hy].
      cbn [val] in Hx, Hy. rewrite Hx, Hy in *.
      pose proof (pow2_pos (bias - 1074) ltac:(blia)) as HP.
      set (P := 2 ^ (bias - 1074)) in *. clearbody P. clear - Hlt HP.
      assert (kx - ky <= -1) by nia. nia.
  - (* zero *)
    replace (val x - val y <=? 0) with true by (symmetry; apply Z.leb_le; lia).
    destruct x as [sx|sx| |sx mx ex], y as [sy|sy| |sy my ey];
      try discriminate; cbn [val] in Heq.
    + destruct sx, sy; reflexivity.
    + pose proof (val_finite_nonzero _ _ _ Vy) as H. destruct sy; lia.
    + pose proof (val_finite_nonzero _ _ _ Vx) as H. destruct sx; lia.
    + destruct (valid_canon _ _ _ Vx) as [Cx _].
      destruct (valid_canon _ _ _ Vy) as [Cy _].
      pose proof (canon_exponent _ _ Cx). pose proof (canon_exponent _ _ Cy).
      unfold SF64sub, SFsub.
      set (ez := Z.min ex ey).
      set (M := cond_Zopp sx (Z.pos (fst (shl_align mx ex ez)))
                - cond_Zopp sy (Z.pos (fst (shl_align my ey ez)))).
      assert (scale M ez = signed sx mx ex - signed sy my ey) as HM.
      { unfold M, ez. rewrite scale_sub, !aligned_value by blia.
        reflexivity. }
      assert (M = 0) as ->.
      { pose proof (pow2_pos (ez + bias) ltac:(unfold ez; blia)).
        unfold scale in HM. nia. }
      reflexivity.
  - (* above zero *)
    replace (val x - val y <=? 0) with false by (symmetry; apply Z.leb_gt; lia).
    apply at_least_positive with (mL := 1) (eL := -1074).
    apply SFsub_at_least; try assumption; [apply canon_least|].
    rewrite scale_least.
    destruct (val_grid _ Vx) as [kx Hx]. destruct (val_grid _ Vy) as [ky Hy].
    rewrite Hx, Hy in *.
    pose proof (pow2_pos (bias - 1074) ltac:(blia)) as HP.
    set (P := 2 ^ (bias - 1074)) in *. clearbody P. clear - Hgt HP.
    assert (1 <= kx - ky) by nia. nia.
Qed.

Local Open Scope float_scope.

(** ** The fallback of [onSubmit] *)

(** On finite years the fallback guard is the comparison of the
    years. *)
Lemma guard_is_comparison x y :
  isFinite x = true -> isFinite y = true ->
  (y - x <=? 0) = (y <=? x).
Proof.
  intros Fx Fy. rewrite !leb_spec, sub_spec.
  change (Prim2SF 0) with (S754_zero false).
  rewrite isFinite_finite in Fx, Fy.
  rewrite SFsub_sign, SFleb_val by (try apply Prim2SF_valid; assumption).
  destruct (Z.leb_spec (val (Prim2SF y)) (val (Prim2SF x)));
    [apply Z.leb_le | apply Z.leb_gt]; lia.
Qed.

(** X8. On finite years, whole numbers or not, [onSubmit] sets its error
    exactly when the renewal year is not above the issue year, and
    otherwise stores the value of the formula. *)
Theorem onSubmit_on_finite_years :
  forall (d : FormValues) (st : State),
    isFinite (issueYear d) = true ->
    isFinite (renewalYear d) = true ->
    onSubmit d st
    = if renewalYear d <=? issueYear d
      then setError "renewalYear" InvalidDuration st
      else setResult
             (calculate (contractValue d) (issueYear d) (renewalYear d)) st.
Proof.
  intros d st Fi Fr. unfold onSubmit.
  rewrite (guard_is_comparison _ _ Fi Fr). reflexivity.
Qed.

Lemma onSubmit_on_finite_years_witness :
  onSubmit reversed_years initial
  = setError "renewalYear" InvalidDuration initial.
Proof.
  rewrite (onSubmit_on_finite_years reversed_years initial);
    vm_compute; reflexivity.
Defined.

(** X9. A form the schema accepts never meets the fallback: [onSubmit]
    stores the value of the formula and leaves the errors alone. *)
Theorem accepted_form_is_calculated :
  forall (m : Loaded) (now : Clock) (d : FormValues) (st : State),
    validate m now d = [] ->
    onSubmit d st
    = setResult (calculate (contractValue d) (issueYear d) (renewalYear d))
        st.
Proof.
  intros m now d st H.
  destruct (validate_nil_inv _ _ _ H) as (_ & Ii & _ & _ & Ir & _ & Hlt).
  unfold onSubmit.
  rewrite (positive_duration_passes_the_guard d Ii Ir Hlt). reflexivity.
Qed.

Lemma accepted_form_is_calculated_witness :
  onSubmit scenario2 initial
  = setResult (calculate 12000 2021 2022) initial.
Proof.
  apply (accepted_form_is_calculated (load 2024%Z) 2024%Z scenario2 initial).
  vm_compute. reflexivity.
Defined.

(** X10. The fallback does not catch a year that is not a number: the
    comparison with zero is false, and what is stored is [NaN]. *)
Theorem onSubmit_stores_NaN :
  forall (d : FormValues) (st : State),
    isNaN (renewalYear d - issueYear d) = true ->
    onSubmit d st = setResult nan st.
Proof.
  intros d st H. unfold onSubmit.
  set (yd := renewalYear d - issueYear d) in *.
  assert (Prim2SF yd = S754_nan) as Hyd
      by (unfold isNaN in H; destruct (Prim2SF yd); congruence).
  assert ((yd <=? 0) = false) as -> by (rewrite leb_spec, Hyd; reflexivity).
  f_equal.
  rewrite <- (SF2Prim_Prim2SF (_ + _)).
  rewrite add_spec, !div_spec, !mul_spec, !div_spec, !mul_spec, Hyd.
  cbn [SF64mul SFmul].
  assert (SF64div (Prim2SF (contractValue d)) S754_nan = S754_nan) as ->
      by (destruct (Prim2SF (contractValue d)); reflexivity).
  reflexivity.
Qed.

Lemma onSubmit_stores_NaN_witness :
  onSubmit
    {| contractValue := 50000; issueYear := nan; renewalYear := 2030 |}
    initial
  = setResult nan initial.
Proof.
  apply (onSubmit_stores_NaN
           {| contractValue := 50000; issueYear := nan; renewalYear := 2030 |}
           initial).
  vm_compute. reflexivity.
Defined.

Local Open Scope string_scope.

(** ** The Wordifier outside fixed notation *)

Lemma mapM_throws {A B} (f : A -> completion B) l a :
  In a l -> (exists e, f a = Throws e) -> exists e, mapM f l = Throws e.
Proof.
  intros Hin [e He]. induction l as [|b l IH]; [destruct Hin|].
  simpl. destruct Hin as [->|Hin].
  - rewrite He. simpl. eauto.
  - destruct (f b); simpl; [|eauto].
    destruct (IH Hin) as [e' ->]. simpl. eauto.
Qed.

Lemma chars_app a b : chars (a ++ b) = (chars a ++ chars b)%list.
Proof. induction a as [|c a IH]; simpl; [reflexivity | now rewrite IH]. Qed.

(** Without a decimal point in what [toFixed] wrote there is no
    fractional part to split, and the call throws. *)
Lemma resultInWords_without_point toWords x :
  all_chars (differs ".") (toFixed 3 x) = true ->
  exists e, resultInWords toWords (Some x) = Throws e.
Proof.
  intros H. unfold resultInWords. rewrite (split_whole _ _ H).
  cbn [hd nth_error]. destruct (toWords _); simpl; eauto.
Qed.

(** With an exponent mark after the decimal point, [toWords] is handed
    the exponent mark, which is not a number. *)
Lemma resultInWords_exponent_mark toWords x a r t :
  (exists e, toWords nan = Throws e) ->
  toFixed 3 x = a ++ String "." (r ++ String "e" t) ->
  all_chars (differs ".") a = true ->
  all_chars (differs ".") (r ++ String "e" t) = true ->
  exists e, resultInWords toWords (Some x) = Throws e.
Proof.
  intros Hnan E Ha Hr. unfold resultInWords.
  rewrite E, (split_app _ _ _ Ha), (split_whole _ _ Hr).
  cbn [hd nth_error]. destruct (toWords (Number a)); simpl; [|eauto].
  destruct (mapM_throws (fun digit => toWords (Number digit))
              (chars (r ++ String "e" t)) "e") as [e' ->].
  - rewrite chars_app. apply in_or_app. right. now left.
  - exact Hnan.
  - simpl. eauto.
Qed.

(** What exponential notation looks like. *)
Lemma exponential_notation_shape s k n :
  all_chars (differs ".") (exponential_notation s k n) = true
  \/ exists c r t,
       exponential_notation s k n = String c (String "." (r ++ String "e" t))
       /\ differs "." c = true
       /\ all_chars (differs ".") (r ++ String "e" t) = true.
Proof.
  unfold exponential_notation.
  pose proof (decimal_digits (Z.to_N s)) as Hd.
  pose proof (decimal_digits (Z.to_N (n - 1))) as He.
  apply (digits_differ ".") in Hd; [|reflexivity].
  apply (digits_differ ".") in He; [|reflexivity].
  destruct (decimal (Z.to_N s)) as [|c r]; [now left|].
  simpl in Hd. apply andb_true_iff in Hd as [Hc Hr].
  destruct (k =? 1)%Z.
  - left. simpl. now rewrite Hc, He.
  - right. exists c, r, ("+" ++ decimal (Z.to_N (n - 1))).
    repeat split; try assumption.
    rewrite all_chars_app, Hr. simpl. exact He.
Qed.

(** A number that is not finite is written without a decimal point. *)
Lemma resultInWords_not_finite toWords x :
  isFinite x = false ->
  exists e, resultInWords toWords (Some x) = Throws e.
Proof.
  intros H. apply resultInWords_without_point.
  unfold isFinite in H. unfold toFixed.
  destruct (Prim2SF x) as [s|s| |s m e]; try discriminate H.
  - now destruct s.
  - reflexivity.
Qed.

(** X11. [resultInWords] returns no words for a number [toFixed] does
    not write in fixed notation -- [NaN], an infinity, or a number of
    magnitude [10^21] or more -- whenever [toWords] refuses [NaN]. *)
Theorem resultInWords_outside_fixed_notation :
  forall (toWords : float -> completion string) (x : float),
    (exists e, toWords nan = Throws e) ->
    below_1e21 x = false ->
    exists e, resultInWords toWords (Some x) = Throws e.
Proof.
  intros toWords x Hnan Hb. unfold below_1e21 in Hb.
  destruct (Prim2SF x) as [s|s| |s m e] eqn:Hx; try discriminate Hb.
  - apply resultInWords_not_finite. unfold isFinite. now rewrite Hx.
  - apply resultInWords_not_finite. unfold isFinite. now rewrite Hx.
  - assert (toFixed 3 x
            = (if s then "-" else "")
              ++ toString_large (abs x) (Z.pos m * 2 ^ e)) as E
        by (unfold toFixed; now rewrite Hx, Hb).
    unfold toString_large in E.
    destruct (shortest _ _ _ _ _) as [[[d k] n]|].
    + destruct (exponential_notation_shape d k n) as [H|(c & r & t & E' & Hc & Hr)].
      * apply resultInWords_without_point. rewrite E, all_chars_app, H.
        now destruct s.
      * rewrite E' in E.
        apply resultInWords_exponent_mark
          with (a := (if s then "-" else "") ++ String c "") (r := r) (t := t);
          try assumption.
        -- rewrite E. now destruct s.
        -- rewrite all_chars_app. simpl. rewrite Hc. now destruct s.
    + apply resultInWords_without_point. rewrite E. now destruct s.
Qed.

Lemma resultInWords_outside_fixed_notation_witness :
  exists e,
    resultInWords NumberToWords.toWords (Some 1.5e21%float) = Throws e.
Proof.
  apply (resultInWords_outside_fixed_notation NumberToWords.toWords
           1.5e21%float).
  - exists TypeError. vm_compute. reflexivity.
  - vm_compute. reflexivity.
Defined.

Local Open Scope Z_scope.

(** ** [toWords] on whole numbers *)

Lemma parseInt_finite x s m e z :
  Prim2SF x = S754_finite s m e ->
  scale (Z.pos m) e = z * 2 ^ bias -> z < 10 ^ 21 ->
  NumberToWords.parseInt x = Some (if s then - z else z).
Proof.
  intros Hx Hv Hz. pose proof (Prim2SF_valid x) as V. rewrite Hx in V.
  destruct (valid_canon _ _ _ V) as [C _].
  pose proof (canon_exponent _ _ C) as He.
  unfold NumberToWords.parseInt. rewrite Hx. unfold below_pow10.
  unfold scale in Hv.
  destruct (Z.leb_spec 0 e) as [Hpos|Hneg].
  - assert (Z.pos m * 2 ^ e = z) as Hm.
    { rewrite Z.pow_add_r in Hv by blia.
      pose proof pow2_bias_pos. nia. }
    rewrite Hm. now rewrite (proj2 (Z.ltb_lt _ _) Hz).
  - assert (Z.pos m = z * 2 ^ (- e)) as Hm.
    { assert (2 ^ bias = 2 ^ (- e) * 2 ^ (e + bias)) as Hb
          by (rewrite <- Z.pow_add_r by blia; f_equal; lia).
      rewrite Hb in Hv. pose proof (pow2_pos (e + bias) ltac:(blia)).
      nia. }
    pose proof (pow2_pos (- e) ltac:(lia)) as HP.
    assert ((Z.pos m <? 10 ^ 21 * 2 ^ (- e)) = true) as ->
        by (apply Z.ltb_lt; rewrite Hm; nia).
    rewrite Hm, Z.div_mul by lia. reflexivity.
Qed.

(** [parseInt] gives back a whole number below [2^53], and its
    opposite. *)
Lemma parseInt_of_N k :
  (k < 2 ^ 53)%N ->
  NumberToWords.parseInt (of_N k) = Some (Z.of_N k)
  /\ NumberToWords.parseInt (- of_N k)%float = Some (- Z.of_N k).
Proof.
  intros Hk. destruct k as [|p]; [split; reflexivity|].
  assert (0 < Z.pos p < 2 ^ 53) as Hp by lia.
  destruct (of_Z_holds _ Hp) as (m & e & Hx & Hv).
  assert (Z.pos p < 10 ^ 21) as Hz by lia.
  unfold of_N. cbn [Z.of_N]. split.
  - exact (parseInt_finite _ _ _ _ _ Hx Hv Hz).
  - apply (parseInt_finite _ true m e (Z.pos p)); try assumption.
    rewrite opp_spec, Hx. reflexivity.
Qed.

Lemma toWords_of_N k :
  (k <= 9007199254740991)%N ->
  NumberToWords.toWords (of_N k)
  = Returns (NumberToWords.generateWords (Z.of_N k))
  /\ NumberToWords.toWords (- of_N k)%float
     = Returns (NumberToWords.generateWords (- Z.of_N k)).
Proof.
  intros Hk. unfold NumberToWords.toWords.
  destruct (parseInt_of_N k ltac:(lia)) as [-> ->].
  unfold NumberToWords.MAX_SAFE_INTEGER.
  rewrite Z.abs_opp.
  assert ((Z.abs (Z.of_N k) <=? 9007199254740991) = true) as ->
      by (apply Z.leb_le; lia).
  split; reflexivity.
Qed.

Lemma toWords_digit d :
  (d < 10)%N ->
  mapM (fun d => NumberToWords.toWords (of_N d)) [d]
  = Returns [NumberToWords.index NumberToWords.LESS_THAN_TWENTY d].
Proof.
  intros Hd. destruct d as [|p]; [reflexivity|].
  do 4 (destruct p as [p|p|]; try lia; try reflexivity).
Qed.

Local Open Scope N_scope.

(** ** [generateWords]: fuel and the words already said *)

Lemma size_half r n : 2 * r <= n -> 0 < n -> N.size r < N.size n.
Proof.
  intros Hr Hn. destruct (N.eq_dec r 0) as [->|Hr0].
  - change (N.size 0) with 0. rewrite N.size_log2 by lia. lia.
  - rewrite !N.size_log2 by lia.
    assert (N.log2 (2 * r) <= N.log2 n) by (apply N.log2_le_mono; lia).
    rewrite N.log2_double in H by lia. lia.
Qed.

Lemma size_div n B : 2 <= B -> B <= n -> N.size (n / B) < N.size n.
Proof.
  intros HB Hn. apply size_half; [|lia].
  pose proof (N.Div0.mul_div_le n B). nia.
Qed.

Lemma size_mod n B : 0 < B -> B <= n -> N.size (n mod B) < N.size n.
Proof.
  intros HB Hn. apply size_half; [|lia].
  pose proof (N.mod_lt n B ltac:(lia)).
  pose proof (N.div_mod n B ltac:(lia)).
  assert (1 <= n / B) by (apply N.div_le_lower_bound; lia).
  nia.
Qed.

Ltac gw_step Hn :=
  cbn [NumberToWords.generateWords_from];
  rewrite (proj2 (N.eqb_neq _ 0) Hn).

Ltac gw_cases n :=
  destruct (N.ltb_spec n 20);
  [|destruct (N.ltb_spec n 100);
    [destruct (N.eqb_spec (n mod 10) 0)
    |destruct (N.ltb_spec n 1000);
     [|destruct (N.ltb_spec n 1000000);
       [|destruct (N.ltb_spec n 1000000000);
         [|destruct (N.ltb_spec n 1000000000000);
           [|destruct (N.ltb_spec n 1000000000000000)]]]]]].

Lemma size_positive n : n <> 0 -> 0 < N.size n.
Proof. intros Hn. rewrite N.size_log2 by assumption. lia. Qed.

(** With fuel above the size of the number, more fuel changes
    nothing: the recursion of [generateWords] has ended by then. *)
Lemma generateWords_from_fuel f :
  forall f' n w,
    (N.to_nat (N.size n) < f)%nat -> (N.to_nat (N.size n) < f')%nat ->
    NumberToWords.generateWords_from f n w
    = NumberToWords.generateWords_from f' n w.
Proof.
  induction f as [|f IH]; intros f' n w Hf Hf'; [lia|].
  destruct f' as [|f']; [lia|].
  destruct (N.eq_dec n 0) as [->|Hn]; [reflexivity|].
  pose proof (size_positive n Hn) as Hs.
  gw_step Hn.
  assert (forall B, 2 <= B -> B <= n ->
            NumberToWords.generateWords_from f (n / B) None
            = NumberToWords.generateWords_from f' (n / B) None) as Hq.
  { intros B HB HBn. pose proof (size_div n B HB HBn).
    apply IH; lia. }
  assert (forall r l, N.size r < N.size n ->
            NumberToWords.generateWords_from f r l
            = NumberToWords.generateWords_from f' r l) as Hr
      by (intros r l Hlt; apply IH; lia).
  gw_cases n;
    rewrite ?(Hq 100), ?(Hq 1000), ?(Hq 1000000), ?(Hq 1000000000),
      ?(Hq 1000000000000), ?(Hq 1000000000000000) by lia;
    apply Hr; try exact Hs; apply size_mod; lia.
Qed.

Lemma drop_last_comma_said a s :
  NumberToWords.drop_last_comma (a ++ " " ++ s)
  = (a ++ " " ++ NumberToWords.drop_last_comma s)%string.
Proof.
  induction a as [|c a IH].
  - simpl. destruct s; reflexivity.
  - change (String c a ++ " " ++ s)%string
      with (String c (a ++ " " ++ s)%string).
    cbn [NumberToWords.drop_last_comma].
    destruct (a ++ " " ++ s)%string eqn:E.
    + destruct a; discriminate E.
    + rewrite IH. reflexivity.
Qed.

Lemma join_cons sep a l :
  l <> [] -> join sep (a :: l) = (a ++ sep ++ join sep l)%string.
Proof. destruct l; [congruence | reflexivity]. Qed.

(** A word said before the number comes first in the result. *)
Lemma generateWords_from_said f :
  forall n a ws,
    n <> 0 -> (N.to_nat (N.size n) < f)%nat ->
    NumberToWords.generateWords_from f n (Some (a :: ws))
    = (a ++ " " ++ NumberToWords.generateWords_from f n (Some ws))%string.
Proof.
  induction f as [|f IH]; intros n a ws Hn Hf; [lia|].
  pose proof (size_positive n Hn) as Hs.
  gw_step Hn.
  assert (forall r word, N.size r < N.size n ->
            NumberToWords.generateWords_from f r
              (Some ((a :: ws) ++ [word])%list)
            = (a ++ " " ++ NumberToWords.generateWords_from f r
                              (Some (ws ++ [word])%list))%string) as Hr.
  { intros r word Hlt. destruct (N.eq_dec r 0) as [->|Hr0].
    - destruct f as [|f]; [lia|]. cbn [NumberToWords.generateWords_from N.eqb].
      change ((a :: ws) ++ [word])%list with (a :: (ws ++ [word]))%list.
      rewrite join_cons by (destruct ws; discriminate).
      apply drop_last_comma_said.
    - apply IH; [assumption | lia]. }
  gw_cases n; apply Hr; try exact Hs; apply size_mod; lia.
Qed.

(** A negative number reads ["minus"], then as its opposite. *)
Lemma generateWords_opp k :
  (0 < k)%Z ->
  NumberToWords.generateWords (- k)
  = ("minus " ++ NumberToWords.generateWords k)%string.
Proof.
  intros Hk. unfold NumberToWords.generateWords.
  rewrite Z.abs_opp.
  assert ((- k <? 0)%Z = true) as -> by (apply Z.ltb_lt; lia).
  assert ((k <? 0)%Z = false) as -> by (apply Z.ltb_ge; lia).
  set (n := Z.to_N (Z.abs k)).
  assert (n <> 0) as Hn by (unfold n; lia).
  assert (N.to_nat (N.size n) < S (S (N.to_nat (N.log2 n))))%nat as Hf
      by (rewrite N.size_log2 by assumption; lia).
  rewrite generateWords_from_said by assumption.
  assert (forall f, NumberToWords.generateWords_from (S f) n (Some [])
                    = NumberToWords.generateWords_from (S f) n None) as ->
      by (intros f; gw_step Hn; reflexivity).
  reflexivity.
Qed.

Local Open Scope string_scope.
Local Open Scope float_scope.

(** ** The words of a number, with number-to-words *)

(** In fixed notation, a number is worded by its sign and its
    thousandths. *)
Lemma resultInWords_sign toWords x n :
  below_1e21 x = true -> scaled_magnitude 3 x = Some n ->
  resultInWords toWords (Some x) = worded toWords (x <? 0) n.
Proof.
  unfold below_1e21, scaled_magnitude. rewrite ltb_spec.
  change (Prim2SF 0) with (S754_zero false).
  destruct (Prim2SF x) as [s|s| |s m e] eqn:Hx; try discriminate.
  - intros _ E. injection E as <-. now apply resultInWords_zero with s.
  - intros Hb E. injection E as <-.
    rewrite (resultInWords_fixed toWords x s m e Hx Hb). now destruct s.
Qed.

Lemma opp_magnitude x n :
  below_1e21 x = true -> scaled_magnitude 3 x = Some n ->
  below_1e21 (- x) = true /\ scaled_magnitude 3 (- x) = Some n.
Proof.
  unfold below_1e21, scaled_magnitude. rewrite opp_spec.
  destruct (Prim2SF x); simpl; auto.
Qed.

Lemma opp_negative x : (x <? 0) = true -> (- x <? 0) = false.
Proof.
  rewrite !ltb_spec, opp_spec. change (Prim2SF 0) with (S754_zero false).
  destruct (Prim2SF x) as [s|s| |s m e]; try discriminate;
    destruct s; try discriminate; reflexivity.
Qed.

Lemma nonnegative_not_negative x : (0 <=? x) = true -> (x <? 0) = false.
Proof. apply leb_not_ltb. Qed.

(** The three digit words. *)
Lemma toWords_digits n :
  mapM (fun d => NumberToWords.toWords (of_N d))
    [digit_at 2 n; digit_at 1 n; digit_at 0 n]
  = Returns (map (NumberToWords.index NumberToWords.LESS_THAN_TWENTY)
               [digit_at 2 n; digit_at 1 n; digit_at 0 n]).
Proof.
  pose proof (toWords_digit _ (digit_at_below_10 2 n)) as H2.
  pose proof (toWords_digit _ (digit_at_below_10 1 n)) as H1.
  pose proof (toWords_digit _ (digit_at_below_10 0 n)) as H0.
  cbn [mapM] in *. unfold bind in *.
  destruct (NumberToWords.toWords (of_N (digit_at 2 n))); [|discriminate H2].
  destruct (NumberToWords.toWords (of_N (digit_at 1 n))); [|discriminate H1].
  destruct (NumberToWords.toWords (of_N (digit_at 0 n))); [|discriminate H0].
  injection H2 as ->. injection H1 as ->. injection H0 as ->. reflexivity.
Qed.

Lemma worded_reads negative n :
  (n / 1000 <= 9007199254740991)%N ->
  worded NumberToWords.toWords negative n
  = Returns
      (sentence
         (NumberToWords.generateWords
            (if negative then - Z.of_N (n / 1000) else Z.of_N (n / 1000))%Z)
         (map (NumberToWords.index NumberToWords.LESS_THAN_TWENTY)
            [digit_at 2 n; digit_at 1 n; digit_at 0 n])).
Proof.
  intros Hn. unfold worded. rewrite toWords_digits.
  destruct (toWords_of_N _ Hn) as [Hp Hm].
  destruct negative; [rewrite Hm | rewrite Hp]; reflexivity.
Qed.

Lemma sentence_minus integerWords fractionalWords :
  sentence ("minus " ++ integerWords) fractionalWords
  = "Minus " ++ sentence integerWords fractionalWords.
Proof.
  unfold sentence.
  change (("minus " ++ integerWords) ++ " point " ++ join " " fractionalWords)
    with ("minus" ++ String " "
            (integerWords ++ " point " ++ join " " fractionalWords)).
  rewrite split_app by reflexivity. cbn [map].
  rewrite join_cons; [reflexivity|].
  pose proof (split_not_nil " "
                (integerWords ++ " point " ++ join " " fractionalWords)).
  destruct (split " " _); [congruence | discriminate].
Qed.

(** X12. With number-to-words, a number that is not negative and whose
    integer part, after rounding to three decimals, is a safe integer
    reads: the words [generateWords] has for the integer part, "Point",
    and the words of the three decimals, every word capitalized. *)
Theorem resultInWords_reads :
  forall (x : float) (n : N),
    (0 <=? x) = true ->
    below_1e21 x = true ->
    scaled_magnitude 3 x = Some n ->
    (n / 1000 <= 9007199254740991)%N ->
    resultInWords NumberToWords.toWords (Some x)
    = Returns
        (sentence (NumberToWords.generateWords (Z.of_N (n / 1000)))
           (map (NumberToWords.index NumberToWords.LESS_THAN_TWENTY)
              [digit_at 2 n; digit_at 1 n; digit_at 0 n])).
Proof.
  intros x n Hpos Hb Hn Hsafe.
  rewrite (resultInWords_sign _ x n Hb Hn).
  rewrite (nonnegative_not_negative x Hpos).
  now rewrite worded_reads.
Qed.

Lemma resultInWords_reads_witness :
  resultInWords NumberToWords.toWords (Some 1532.3611111111111)
  = Returns
      (sentence (NumberToWords.generateWords (Z.of_N (1532361 / 1000)))
         (map (NumberToWords.index NumberToWords.LESS_THAN_TWENTY)
            [digit_at 2 1532361; digit_at 1 1532361; digit_at 0 1532361])).
Proof.
  apply (resultInWords_reads 1532.3611111111111 1532361);
    try (vm_compute; reflexivity); apply N.leb_le; vm_compute; reflexivity.
Defined.

(** X13. With number-to-words, a negative number reads as its opposite
    does, after the word "Minus" -- which is left out when the number
    rounds to less than one: -0.25 reads "Zero Point Two Five Zero". *)
Theorem resultInWords_of_a_negative_number :
  forall (x : float) (n : N),
    (x <? 0) = true ->
    below_1e21 x = true ->
    scaled_magnitude 3 x = Some n ->
    (n / 1000 <= 9007199254740991)%N ->
    exists w : string,
      resultInWords NumberToWords.toWords (Some (- x)) = Returns w
      /\ resultInWords NumberToWords.toWords (Some x)
         = Returns (if (n <? 1000)%N then w else "Minus " ++ w).
Proof.
  intros x n Hneg Hb Hn Hsafe.
  destruct (opp_magnitude x n Hb Hn) as [Hb' Hn'].
  rewrite (resultInWords_sign _ x n Hb Hn), Hneg.
  rewrite (resultInWords_sign _ (- x) n Hb' Hn'), (opp_negative x Hneg).
  rewrite !worded_reads by assumption.
  eexists. split; [reflexivity|]. f_equal.
  destruct (N.ltb_spec n 1000) as [Hlt|Hge].
  - rewrite (N.div_small n 1000 Hlt). reflexivity.
  - assert (0 < Z.of_N (n / 1000))%Z as Hk.
    { assert (1 <= n / 1000)%N by (apply N.div_le_lower_bound; lia). lia. }
    rewrite (generateWords_opp _ Hk). apply sentence_minus.
Qed.

Lemma resultInWords_of_a_negative_number_witness :
  exists w : string,
    resultInWords NumberToWords.toWords (Some (- (-0.25))) = Returns w
    /\ resultInWords NumberToWords.toWords (Some (-0.25))
       = Returns (if (250 <? 1000)%N then w else "Minus " ++ w).
Proof.
  apply (resultInWords_of_a_negative_number (-0.25) 250);
    try (vm_compute; reflexivity); apply N.leb_le; vm_compute; reflexivity.
Defined.

Local Open Scope Z_scope.

(** ** From the form to the words *)

(** The value of the formula for a contract value of at most [2^53]:
    [v1] is at most [2^50], [v2] at most [2^54], [v2 / 100] at most
    [2^48] and the result at most [2^51]. *)
Lemma calculate_at_most_from cv iy ry :
  at_most (Prim2SF cv) 4503599627370496 1 ->
  isInteger iy = true -> isInteger ry = true -> (iy <? ry)%float = true ->
  at_most (Prim2SF (calculate cv iy ry)) 4503599627370496 (-1).
Proof.
  intros Hcv Ii Ir Hlt. unfold calculate.
  pose proof (integer_difference_at_least_one iy ry Ii Ir Hlt) as Hyd.
  set (yd := (ry - iy)%float) in *.
  assert (at_least (Prim2SF (yd * 12)%float) 6755399441055744 (-49))
    as Hmonths.
  { rewrite mul_spec.
    apply SFmul_at_least
      with (m1 := 4503599627370496) (e1 := -52)
           (m2 := 6755399441055744) (e2 := -49);
      try apply Prim2SF_valid; try assumption;
      try closed_le; try closed_canon.
    now apply (at_least_itself false 6755399441055744 (-49)). }
  set (months := (yd * 12)%float) in *.
  assert (at_most (Prim2SF (cv / months)%float) 4503599627370496 (-2))
    as Hv1.
  { rewrite div_spec.
    apply SFdiv_at_most
      with (m1 := 4503599627370496) (e1 := 1)
           (m2 := 6755399441055744) (e2 := -49);
      try apply Prim2SF_valid; try assumption;
      try closed_le; try closed_canon; try reflexivity. }
  set (v1 := (cv / months)%float) in *.
  assert (at_most (Prim2SF (v1 * 10.33)%float) 4503599627370496 2)
    as Hv2.
  { rewrite mul_spec.
    apply SFmul_at_most
      with (m1 := 4503599627370496) (e1 := -2)
           (m2 := 5815273018842153) (e2 := -49);
      try apply Prim2SF_valid; try assumption;
      try closed_le; try closed_canon.
    right. exists 5815273018842153%positive, (-49).
    split; [reflexivity | lia]. }
  set (v2 := (v1 * 10.33)%float) in *.
  assert (at_most (Prim2SF (v2 / 100)%float) 4503599627370496 (-4))
    as Hv3.
  { rewrite div_spec.
    apply SFdiv_at_most
      with (m1 := 4503599627370496) (e1 := 2)
           (m2 := 7036874417766400) (e2 := -46);
      try apply Prim2SF_valid; try assumption;
      try closed_le; try closed_canon; try reflexivity.
    now apply (at_least_itself false 7036874417766400 (-46)). }
  rewrite add_spec.
  apply SFadd_at_most
    with (m1 := 4503599627370496) (e1 := -4)
         (m2 := 4503599627370496) (e2 := -2);
    try apply Prim2SF_valid; try assumption;
    try closed_le; try closed_canon.
Qed.

(** A positive number not above [2^53]. *)
Lemma positive_at_most_2p53 x :
  (0 <? x)%float = true -> (x <=? 9007199254740992)%float = true ->
  at_most (Prim2SF x) 4503599627370496 1.
Proof.
  intros Hpos Hle. rewrite ltb_spec in Hpos. rewrite leb_spec in Hle.
  change (Prim2SF 0) with (S754_zero false) in Hpos.
  change (Prim2SF 9007199254740992)
    with (S754_finite false 4503599627370496 1) in Hle.
  pose proof (Prim2SF_valid x) as V.
  destruct (Prim2SF x) as [s|s| |s m e]; try discriminate.
  - destruct s; discriminate.
  - destruct s; [discriminate Hpos|].
    rewrite SFleb_val in Hle by (assumption || reflexivity).
    apply Z.leb_le in Hle. right. exists m, e. split; [reflexivity|].
    exact Hle.
Qed.

(** A number that is at most [2^51] is written in fixed notation, and
    its integer part is a safe integer. *)
Lemma at_most_2p51_magnitude x :
  at_most (Prim2SF x) 4503599627370496 (-1) ->
  (0 <=? x)%float = true /\ below_1e21 x = true
  /\ exists n, scaled_magnitude 3 x = Some n
               /\ (n / 1000 <= 9007199254740991)%N.
Proof.
  intros H. pose proof (Prim2SF_valid x) as V.
  rewrite leb_spec. unfold below_1e21, scaled_magnitude.
  change (Prim2SF 0) with (S754_zero false).
  destruct H as [->|(m & e & Hx & Hle)].
  - repeat split. exists 0%N. split; [reflexivity | discriminate].
  - rewrite Hx in *. destruct (valid_canon _ _ _ V) as [C _].
    pose proof (canon_exponent _ _ C) as He.
    assert (scale 4503599627370496 (-1) = 2 ^ 51 * 2 ^ bias) as Hs.
    { change 4503599627370496 with (2 ^ 51 * 2 ^ 1).
      rewrite scale_shift by blia. reflexivity. }
    rewrite Hs in Hle. unfold scale in Hle.
    unfold below_pow10, round_scaled.
    change (10 ^ Z.of_nat 3) with 1000.
    destruct (Z.leb_spec 0 e) as [Hpos|Hneg].
    + assert (Z.pos m * 2 ^ e <= 2 ^ 51) as Hm.
      { rewrite Z.pow_add_r in Hle by blia.
        pose proof pow2_bias_pos. nia. }
      repeat split.
      * apply Z.ltb_lt. lia.
      * eexists. split; [reflexivity|].
        apply N.Div0.div_le_upper_bound. lia.
    + pose proof (pow2_pos (- e) ltac:(lia)) as HP.
      assert (Z.pos m <= 2 ^ 51 * 2 ^ (- e)) as Hm.
      { assert (2 ^ bias = 2 ^ (- e) * 2 ^ (e + bias)) as Hb
            by (rewrite <- Z.pow_add_r by blia; f_equal; lia).
        rewrite Hb in Hle. pose proof (pow2_pos (e + bias) ltac:(blia)).
        nia. }
      repeat split.
      * apply Z.ltb_lt. nia.
      * eexists. split; [reflexivity|].
        apply N.Div0.div_le_upper_bound.
        assert ((2 * (Z.pos m * 1000) + 2 ^ (- e)) / (2 * 2 ^ (- e))
                < 2 ^ 51 * 1000 + 1) as Hq
            by (apply Z.div_lt_upper_bound; nia).
        pose proof (Z.div_pos (2 * (Z.pos m * 1000) + 2 ^ (- e))
                      (2 * 2 ^ (- e)) ltac:(lia) ltac:(lia)).
        lia.
Qed.

(** The months of an accepted pair of years are above zero, or
    infinite; an infinite contract value divided by them is infinite,
    or not a number. *)
Lemma infinite_value_not_finite iy ry :
  isInteger iy = true -> isInteger ry = true -> (iy <? ry)%float = true ->
  isFinite (calculate infinity iy ry) = false.
Proof.
  intros Ii Ir Hlt. unfold calculate.
  pose proof (integer_difference_at_least_one iy ry Ii Ir Hlt) as Hyd.
  set (yd := (ry - iy)%float) in *.
  assert (at_least (Prim2SF (yd * 12)%float) 6755399441055744 (-49))
    as Hmonths.
  { rewrite mul_spec.
    apply SFmul_at_least
      with (m1 := 4503599627370496) (e1 := -52)
           (m2 := 6755399441055744) (e2 := -49);
      try apply Prim2SF_valid; try assumption;
      try closed_le; try closed_canon.
    now apply (at_least_itself false 6755399441055744 (-49)). }
  set (months := (yd * 12)%float) in *.
  unfold isFinite.
  rewrite add_spec, !div_spec, mul_spec, div_spec.
  change (Prim2SF infinity) with (S754_infinity false).
  change (Prim2SF 10.33%float) with (S754_finite false 5815273018842153 (-49)).
  change (Prim2SF 100%float) with (S754_finite false 7036874417766400 (-46)).
  destruct Hmonths as [->|(mm & em & -> & _)]; reflexivity.
Qed.

Local Open Scope float_scope.

(** X14. A form the schema accepts, with a contract value of at most
    [2^53] (about 9 * 10^15), always gets its words: [resultInWords],
    with number-to-words, returns on the number [onSubmit] has stored. *)
Theorem accepted_form_is_worded :
  forall (m : Loaded) (now : Clock) (d : FormValues) (st : State),
    validate m now d = [] ->
    (contractValue d <=? 9007199254740992) = true ->
    exists w : string,
      resultInWords NumberToWords.toWords (result (onSubmit d st))
      = Returns w.
Proof.
  intros m now d st H Hle.
  destruct (validate_nil_inv _ _ _ H) as (Hcv & Ii & _ & _ & Ir & _ & Hlt).
  unfold onSubmit.
  rewrite (positive_duration_passes_the_guard d Ii Ir Hlt).
  cbn [result setResult].
  pose proof (calculate_at_most_from _ _ _
                (positive_at_most_2p53 _ Hcv Hle) Ii Ir Hlt) as Hr.
  fold (calculate (contractValue d) (issueYear d) (renewalYear d)).
  destruct (at_most_2p51_magnitude _ Hr) as (Hpos & Hb & n & Hn & Hsafe).
  rewrite (resultInWords_sign _ _ n Hb Hn).
  rewrite (nonnegative_not_negative _ Hpos), worded_reads by assumption.
  eauto.
Qed.

Lemma accepted_form_is_worded_witness :
  exists w : string,
    resultInWords NumberToWords.toWords (result (onSubmit scenario2 initial))
    = Returns w.
Proof.
  apply (accepted_form_is_worded (load 2024%Z) 2024%Z scenario2 initial);
    vm_compute; reflexivity.
Defined.

(** X15. The schema lets an infinite contract value through --
    [.positive()] is its only check -- and then the stored number is not
    finite and [resultInWords] throws on it, whatever [toWords] does. *)
Theorem infinite_contract_value_is_accepted :
  forall (toWords : float -> completion string) (m : Loaded) (now : Clock)
         (iy ry : float) (st : State),
    isInteger iy = true ->
    (iy <? 1900) = false ->
    (currentYear m <? iy) = false ->
    isInteger ry = true ->
    (ry <? 1900) = false ->
    (iy <? ry) = true ->
    let d := {| contractValue := infinity; issueYear := iy;
                renewalYear := ry |} in
    validate m now d = []
    /\ exists e, resultInWords toWords (result (onSubmit d st)) = Throws e.
Proof.
  intros toWords m now iy ry st Ii Hi1 Hi2 Ir Hr Hlt d. split.
  - apply validate_accepts; cbn [contractValue issueYear renewalYear d];
      try assumption; reflexivity.
  - unfold onSubmit.
    rewrite (positive_duration_passes_the_guard d Ii Ir Hlt).
    cbn [result setResult contractValue issueYear renewalYear d].
    apply resultInWords_not_finite.
    now apply infinite_value_not_finite.
Qed.

Lemma infinite_contract_value_is_accepted_witness :
  let d := {| contractValue := infinity; issueYear := 2021;
              renewalYear := 2022 |} in
  validate (load 2024%Z) 2024%Z d = []
  /\ exists e,
       resultInWords NumberToWords.toWords (result (onSubmit d initial))
       = Throws e.
Proof.
  apply (infinite_contract_value_is_accepted NumberToWords.toWords
           (load 2024%Z) 2024%Z 2021 2022 initial);
    vm_compute; reflexivity.
Defined.

Local Open Scope Z_scope.

(** ** The adjustment never lowers the monthly value *)

Lemma SFleb_refl_finite m e :
  canon (Z.pos m) e ->
  SFleb (S754_finite false m e) (S754_finite false m e) = true.
Proof.
  intros C. unfold SFleb. rewrite SFcompare_signed by assumption.
  now rewrite Z.compare_refl.
Qed.

(** Adding a number that is not negative to [y] gives [y] or more. *)
Lemma SFadd_not_below x y m1 e1 m2 e2 :
  valid_binary x = true -> valid_binary y = true ->
  valid_binary (SF64add x y) = true ->
  at_most x m1 e1 -> at_most y m2 e2 ->
  SFleb y (SF64add x y) = true.
Proof.
  intros Vx Vy Vs [->|(mx & ex & -> & _)] [->|(my & ey & -> & _)];
    try reflexivity.
  - destruct (valid_canon _ _ _ Vy) as [Cy _].
    cbn [SF64add SFadd]. now apply SFleb_refl_finite.
  - destruct (valid_canon _ _ _ Vx) as [Cx _].
    destruct (valid_canon _ _ _ Vy) as [Cy _].
    pose proof (canon_exponent _ _ Cx). pose proof (canon_exponent _ _ Cy).
    assert (at_least (SF64add (S754_finite false mx ex)
                        (S754_finite false my ey)) (Z.pos my) ey) as H1.
    { apply SFadd_at_least
        with (m1 := Z.pos mx) (e1 := ex) (m2 := Z.pos my) (e2 := ey);
        try assumption.
      - right. exists mx, ex. split; [reflexivity | lia].
      - right. exists my, ey. split; [reflexivity | lia].
      - pose proof (scale_pos (Z.pos mx) ex ltac:(blia) ltac:(lia)). lia. }
    destruct H1 as [E|(m & e & E & Hle)]; rewrite E in *; [reflexivity|].
    destruct (valid_canon _ _ _ Vs) as [Cs _].
    unfold SFleb. rewrite SFcompare_signed by assumption.
    unfold signed, cond_Zopp.
    destruct (Z.compare_spec (scale (Z.pos my) ey) (scale (Z.pos m) e));
      try reflexivity. lia.
Qed.

(** The steps of the formula on validated input: the monthly value
    [v1] and the adjustment [v2 / 100] are finite and not negative. *)
Lemma calculate_parts cv iy ry :
  isFinite cv = true -> (0 <? cv)%float = true ->
  isInteger iy = true -> isInteger ry = true -> (iy <? ry)%float = true ->
  at_most (Prim2SF (cv / ((ry - iy) * 12))%float) 6192449487634432 968
  /\ at_most (Prim2SF (cv / ((ry - iy) * 12) * 10.33 / 100)%float)
       4503599627370496 966.
Proof.
  intros Fcv Hcv Ii Ir Hlt.
  pose proof (integer_difference_at_least_one iy ry Ii Ir Hlt) as Hyd.
  set (yd := (ry - iy)%float) in *.
  assert (at_least (Prim2SF (yd * 12)%float) 6755399441055744 (-49))
    as Hmonths.
  { rewrite mul_spec.
    apply SFmul_at_least
      with (m1 := 4503599627370496) (e1 := -52)
           (m2 := 6755399441055744) (e2 := -49);
      try apply Prim2SF_valid; try assumption;
      try closed_le; try closed_canon.
    now apply (at_least_itself false 6755399441055744 (-49)). }
  set (months := (yd * 12)%float) in *.
  assert (at_most (Prim2SF (cv / months)%float) 6192449487634432 968)
    as Hv1.
  { rewrite div_spec.
    apply SFdiv_at_most
      with (m1 := 9007199254740991) (e1 := 971)
           (m2 := 6755399441055744) (e2 := -49);
      try apply Prim2SF_valid; try assumption;
      try closed_le; try closed_canon; try reflexivity.
    now apply positive_at_most_max. }
  split; [exact Hv1|].
  set (v1 := (cv / months)%float) in *.
  assert (at_most (Prim2SF (v1 * 10.33)%float) 8022036836253696 971)
    as Hv2.
  { rewrite mul_spec.
    apply SFmul_at_most
      with (m1 := 6192449487634432) (e1 := 968)
           (m2 := 5815273018842153) (e2 := -49);
      try apply Prim2SF_valid; try assumption;
      try closed_le; try closed_canon.
    right. exists 5815273018842153%positive, (-49).
    split; [reflexivity | lia]. }
  rewrite div_spec.
  apply SFdiv_at_most
    with (m1 := 8022036836253696) (e1 := 971)
         (m2 := 7036874417766400) (e2 := -46);
    try apply Prim2SF_valid; try assumption;
    try closed_le; try closed_canon; try reflexivity.
  now apply (at_least_itself false 7036874417766400 (-46)).
Qed.

Local Open Scope float_scope.

(** X16. On validated input with a finite contract value, the number
    [onSubmit] stores is not below [value1], the contract value per
    month: rounding included, the adjustment never lowers it. *)
Theorem adjusted_value_is_not_below_the_monthly_value :
  forall (d : FormValues) (st : State),
    isFinite (contractValue d) = true ->
    (0 <? contractValue d) = true ->
    isInteger (issueYear d) = true ->
    isInteger (renewalYear d) = true ->
    (issueYear d <? renewalYear d) = true ->
    exists r : float,
      result (onSubmit d st) = Some r
      /\ (contractValue d / ((renewalYear d - issueYear d) * 12) <=? r)
         = true.
Proof.
  intros d st Fcv Hcv Ii Ir Hlt.
  exists (calculate (contractValue d) (issueYear d) (renewalYear d)).
  split.
  - unfold onSubmit.
    rewrite (positive_duration_passes_the_guard d Ii Ir Hlt). reflexivity.
  - destruct (calculate_parts _ _ _ Fcv Hcv Ii Ir Hlt) as [Hv1 Hv3].
    unfold calculate. rewrite leb_spec.
    pose proof (Prim2SF_valid
                  (contractValue d / ((renewalYear d - issueYear d) * 12)
                   * 10.33 / 100
                   + contractValue d / ((renewalYear d - issueYear d) * 12)))
      as Vs.
    rewrite add_spec in *.
    eapply SFadd_not_below; try apply Prim2SF_valid; eassumption.
Qed.

Lemma adjusted_value_is_not_below_the_monthly_value_witness :
  exists r : float,
    result (onSubmit scenario2 initial) = Some r
    /\ (contractValue scenario2
        / ((renewalYear scenario2 - issueYear scenario2) * 12) <=? r)
       = true.
Proof.
  apply (adjusted_value_is_not_below_the_monthly_value scenario2 initial);
    vm_compute; reflexivity.
Defined.

Local Open Scope Z_scope.

(** ** Integer parts that are not safe integers *)

(** A number of the format is the Number value of its own integer
    value. *)
Lemma of_Z_exact m e :
  canon (Z.pos m) e -> 0 <= e <= 971 ->
  exists m' e',
    Prim2SF (of_Z (Z.pos m * 2 ^ e)) = S754_finite false m' e'
    /\ scale (Z.pos m') e' = (Z.pos m * 2 ^ e) * 2 ^ bias.
Proof.
  intros C He. rewrite Prim2SF_of_Z.
  assert (scale (Z.pos m * 2 ^ e) 0 = scale (Z.pos m) e) as Hs
      by (rewrite scale_shift by blia; f_equal; lia).
  replace ((Z.pos m * 2 ^ e) * 2 ^ bias) with (scale (Z.pos m) e)
    by (rewrite <- Hs; reflexivity).
  pose proof (pow2_pos e ltac:(lia)).
  apply at_most_at_least.
  - apply binary_normalize_at_most; try assumption; try blia; nia.
  - apply binary_normalize_at_least; try assumption; try blia; lia.
Qed.

(** A number whose thousandths make [2^53] units or more is a whole
    number. *)
Lemma unsafe_integer_part m e :
  canon (Z.pos m) e ->
  (2 ^ 53 <= round_scaled 3 m e / 1000)%N ->
  0 <= e /\ Z.of_N (round_scaled 3 m e / 1000) = Z.pos m * 2 ^ e.
Proof.
  intros C H. unfold round_scaled in *.
  change (10 ^ Z.of_nat 3) with 1000 in *.
  pose proof (canon_digits _ _ C) as Hd.
  pose proof (Zdigits2_bounds (Z.pos m) ltac:(lia)) as [_ Hm].
  assert (Z.pos m < 2 ^ 53) as Hm'.
  { eapply Z.lt_le_trans; [exact Hm|]. apply Z.pow_le_mono_r; lia. }
  destruct (Z.leb_spec 0 e) as [Hpos|Hneg].
  - split; [assumption|].
    pose proof (pow2_pos e ltac:(lia)).
    rewrite N2Z.inj_div, Z2N.id by nia.
    change (Z.of_N 1000) with 1000. now rewrite Z.div_mul by lia.
  - exfalso.
    pose proof (pow2_pos (- e) ltac:(lia)) as HP.
    assert (2 <= 2 ^ (- e)) as HP2
        by (change 2 with (2 ^ 1) at 1; apply Z.pow_le_mono_r; lia).
    set (P := 2 ^ (- e)) in *.
    assert ((2 * (Z.pos m * 1000) + P) / (2 * P) < 2 ^ 52 * 1000 + 1) as Hq.
    { apply Z.div_lt_upper_bound; [lia|].
      change (2 ^ 53) with (2 * 2 ^ 52) in Hm'. nia. }
    pose proof (Z.div_pos (2 * (Z.pos m * 1000) + P) (2 * P)
                  ltac:(lia) ltac:(lia)) as Hq0.
    set (q := (2 * (Z.pos m * 1000) + P) / (2 * P)) in *.
    assert (Z.to_N q / 1000 <= 2 ^ 52)%N as Hle.
    { apply N.Div0.div_le_upper_bound.
      change (1000 * 2 ^ 52)%N with (Z.to_N (2 ^ 52 * 1000)). lia. }
    change (2 ^ 53)%N with 9007199254740992%N in H.
    change (2 ^ 52)%N with 4503599627370496%N in Hle. lia.
Qed.

Local Open Scope string_scope.
Local Open Scope float_scope.

(** X17. With number-to-words, a number that is not negative, written in
    fixed notation, whose integer part is above the largest safe integer
    [2^53 - 1] gets no words: [toWords] throws a [RangeError]. *)
Theorem resultInWords_above_the_safe_integers :
  forall (x : float) (n : N),
    (0 <=? x) = true ->
    below_1e21 x = true ->
    scaled_magnitude 3 x = Some n ->
    (9007199254740991 < n / 1000)%N ->
    resultInWords NumberToWords.toWords (Some x) = Throws RangeError.
Proof.
  intros x n Hpos Hb Hn Hbig.
  rewrite (resultInWords_sign _ x n Hb Hn).
  rewrite (nonnegative_not_negative x Hpos).
  pose proof (Prim2SF_valid x) as V.
  unfold below_1e21, scaled_magnitude in *.
  destruct (Prim2SF x) as [s|s| |s m e]; try discriminate.
  - injection Hn as <-. discriminate Hbig.
  - injection Hn as <-.
    destruct (valid_canon _ _ _ V) as [C He].
    destruct (unsafe_integer_part m e C) as [He0 Hk];
      [change (2 ^ 53)%N with 9007199254740992%N; lia|].
    destruct (of_Z_exact m e C ltac:(lia)) as (m' & e' & Hx' & Hv').
    unfold worded, of_N. rewrite Hk.
    assert (Z.pos m * 2 ^ e < 10 ^ 21)%Z as Hz.
    { unfold below_pow10 in Hb.
      rewrite (proj2 (Z.leb_le _ _) He0) in Hb. now apply Z.ltb_lt. }
    unfold NumberToWords.toWords at 1.
    rewrite (parseInt_finite _ _ _ _ _ Hx' Hv' Hz).
    unfold NumberToWords.MAX_SAFE_INTEGER.
    assert ((Z.abs (Z.pos m * 2 ^ e) <=? 9007199254740991)%Z = false) as ->
        by (apply Z.leb_gt; lia).
    reflexivity.
Qed.

Lemma resultInWords_above_the_safe_integers_witness :
  resultInWords NumberToWords.toWords (Some 9007199254740992)
  = Throws RangeError.
Proof.
  apply (resultInWords_above_the_safe_integers 9007199254740992
           9007199254740992000);
    try (vm_compute; reflexivity).
Defined.

Local Open Scope Z_scope.

(** ** The words of a number that is not negative *)

(** A number whose integer part, in thousandths rounded, is a safe
    integer is below [10^21]: [toFixed] writes it in fixed notation. *)
Lemma safe_integer_part_below_1e21 m e :
  (round_scaled 3 m e / 1000 <= 9007199254740991)%N ->
  below_pow10 21 m e = true.
Proof.
  unfold round_scaled, below_pow10.
  change (10 ^ Z.of_nat 3) with 1000.
  destruct (Z.leb_spec 0 e) as [Hpos|Hneg]; intros H.
  - pose proof (pow2_pos e ltac:(lia)).
    apply Z.ltb_lt.
    assert (Z.to_N (Z.pos m * 2 ^ e * 1000) / 1000
            = Z.to_N (Z.pos m * 2 ^ e))%N as E.
    { rewrite Z2N.inj_mul by nia. change (Z.to_N 1000) with 1000%N.
      now rewrite N.div_mul by discriminate. }
    rewrite E in H. lia.
  - pose proof (pow2_pos (- e) ltac:(lia)) as HP.
    set (P := 2 ^ (- e)) in *.
    apply Z.ltb_lt.
    destruct (Z.lt_ge_cases (Z.pos m) (10 ^ 21 * P)) as [Hlt|Hge];
      [assumption | exfalso].
    assert (10 ^ 21 * 1000 <= (2 * (Z.pos m * 1000) + P) / (2 * P)) as Hq
        by (apply Z.div_le_lower_bound; nia).
    set (q := (2 * (Z.pos m * 1000) + P) / (2 * P)) in *.
    assert (10 ^ 21 <= Z.to_N q / 1000)%N as Hn.
    { apply N.div_le_lower_bound; [discriminate|].
      change (1000 * 10 ^ 21)%N with (Z.to_N (10 ^ 21 * 1000)). lia. }
    change (10 ^ 21)%N with 1000000000000000000000%N in Hn. lia.
Qed.

Local Open Scope string_scope.

(** Cutting at a separator, then at the others. *)
Lemma split_app_any sep a b :
  split sep (a ++ String sep b) = (split sep a ++ split sep b)%list.
Proof.
  induction a as [|c a IH]; simpl.
  - now rewrite Ascii.eqb_refl.
  - destruct (Ascii.eqb c sep); rewrite IH; [reflexivity|].
    pose proof (split_not_nil sep a) as Hne.
    destruct (split sep a) as [|w ws]; [congruence | reflexivity].
Qed.

(** The word of a decimal digit is one word. *)
Lemma digit_word_one_word d :
  (d < 10)%N ->
  all_chars (differs " ")
    (NumberToWords.index NumberToWords.LESS_THAN_TWENTY d) = true.
Proof.
  intros Hd. destruct d as [|p]; [reflexivity|].
  do 4 (destruct p as [p|p|]; try lia; try reflexivity).
Qed.

(** The words of the sentence, one by one: those of the integer part,
    "Point", and the three digit words. *)
Lemma sentence_words integerWords d2 d1 d0 :
  all_chars (differs " ") d2 = true ->
  all_chars (differs " ") d1 = true ->
  all_chars (differs " ") d0 = true ->
  split " " (sentence integerWords [d2; d1; d0])
  = (map capitalize (split " " integerWords)
     ++ ["Point"; capitalize d2; capitalize d1; capitalize d0])%list.
Proof.
  intros H2 H1 H0. unfold sentence. rewrite split_title_case.
  change (integerWords ++ " point " ++ join " " [d2; d1; d0])
    with (integerWords ++ String " " ("point" ++ String " "
            (d2 ++ String " " (d1 ++ String " " d0)))).
  rewrite split_app_any, map_app. f_equal.
  rewrite split_app by reflexivity.
  rewrite split_app by assumption.
  rewrite split_app by assumption.
  rewrite split_whole by assumption. reflexivity.
Qed.

Local Open Scope float_scope.

(** C3 (amended).  For every finite number that is not negative and
    whose integer part, after rounding to three decimals, is a safe
    integer (at most [2^53 - 1]), [resultInWords] with number-to-words
    returns a sentence whose words are, in order: the cardinal words of
    the integer part, "Point", and exactly three digit words, one for
    each decimal (none is left out); and every word of the sentence
    starts with a capital. *)
Theorem resultInWords_nonnegative :
  forall (x : float) (n : N),
    (0 <=? x) = true ->
    scaled_magnitude 3 x = Some n ->
    (n / 1000 <= 9007199254740991)%N ->
    exists out : string,
      resultInWords NumberToWords.toWords (Some x) = Returns out
      /\ split " " out
         = (map capitalize
              (split " " (NumberToWords.generateWords (Z.of_N (n / 1000))))
            ++ "Point"
               :: map (fun d =>
                         capitalize
                           (NumberToWords.index
                              NumberToWords.LESS_THAN_TWENTY d))
                    [digit_at 2 n; digit_at 1 n; digit_at 0 n])%list
      /\ Forall capitalized (split " " out).
Proof.
  intros x n Hpos Hn Hsafe.
  assert (below_1e21 x = true) as Hb.
  { unfold below_1e21, scaled_magnitude in *.
    destruct (Prim2SF x) as [s|s| |s m e]; try discriminate Hn;
      [reflexivity|].
    injection Hn as <-. now apply safe_integer_part_below_1e21. }
  pose proof (resultInWords_sign NumberToWords.toWords x n Hb Hn) as E.
  rewrite (nonnegative_not_negative x Hpos), worded_reads in E
    by assumption.
  eexists. split; [exact E|]. split.
  - cbn [map]. apply sentence_words; apply digit_word_one_word;
      apply digit_at_below_10.
  - exact (resultInWords_capitalized _ _ _ E).
Qed.

Lemma resultInWords_nonnegative_witness :
  exists out : string,
    resultInWords NumberToWords.toWords (Some 1532.3611111111111)
    = Returns out
    /\ split " " out
       = (map capitalize
            (split " "
               (NumberToWords.generateWords (Z.of_N (1532361 / 1000))))
          ++ "Point"
             :: map (fun d =>
                       capitalize
                         (NumberToWords.index
                            NumberToWords.LESS_THAN_TWENTY d))
                  [digit_at 2 1532361; digit_at 1 1532361;
                   digit_at 0 1532361])%list
    /\ Forall capitalized (split " " out).
Proof.
  apply (resultInWords_nonnegative 1532.3611111111111 1532361);
    try (vm_compute; reflexivity); apply N.leb_le; vm_compute; reflexivity.
Defined.

(** C3 as stated fails above the safe integers: [2^53] is finite and
    not negative, and [toWords] refuses its integer part. *)
Lemma no_words_above_the_safe_integers :
  isFinite 9007199254740992 = true
  /\ (0 <=? 9007199254740992) = true
  /\ resultInWords NumberToWords.toWords (Some 9007199254740992)
     = Throws RangeError.
Proof. repeat split; vm_compute; reflexivity. Qed.
